(** * A shallow embedding of the skip list of [skiplist.go]

    The Go program keeps its nodes on the garbage-collected heap and links
    them with pointers.  Here the heap is an arena: a list of nodes
    addressed by their position, a pointer is an [option addr] ([None] is
    Go's [nil]), and every operation that mutates a node returns the new
    arena.  The generic key type [O] is instantiated at [int] (modelled by
    [Z]; only comparisons are applied to keys); the value type [T] stays
    generic and comes with its Go zero value. *)

From stdpp Require Import base numbers option list sorting.

Open Scope Z_scope.

(** ** Outcomes of running a piece of Go code *)

(** [Ok a]: the code returns [a].  [Panic]: a run-time panic (nil
    dereference, index out of range).  [Diverge]: a loop that walks a
    chain of the arena has taken more steps than the arena has nodes, so
    it is going round a cycle and the Go loop never ends. *)
Inductive result (A : Type) : Type :=
  | Ok (a : A)
  | Panic
  | Diverge.
Arguments Ok {A} a.
Arguments Panic {A}.
Arguments Diverge {A}.

#[global] Instance result_ret : MRet result := fun A a => Ok a.
#[global] Instance result_bind : MBind result := fun A B f m =>
  match m with
  | Ok a => f a
  | Panic => Panic
  | Diverge => Diverge
  end.

(** The zero value Go gives to a variable of type [T]. *)
Class GoZero (T : Type) : Type := zero_value : T.
#[global] Instance Z_zero : GoZero Z := 0.

Definition addr : Type := nat.

Section SkipList.

Context {T : Type} `{GoZero T}.

(** ** Data model *)

(** Modelled from the spec: the [node] struct is declared outside
    [skiplist.go]; the code uses its fields [key], [val] and [nextNodes]
    (one forward pointer per level the node takes part in). *)
Record node : Type := mkNode {
  key : Z;
  val : T;
  nextNodes : list (option addr)
}.

(** Modelled from the spec: the constructor [newNode(key, val, nextNodes)],
    declared outside [skiplist.go]. *)
Definition newNode (k : Z) (v : T) (nx : list (option addr)) : node :=
  mkNode k v nx.

(** Modelled from the spec: the [KvPair] result record, declared outside
    [skiplist.go]. *)
Record KvPair : Type := mkKvPair {
  kkey : Z;
  kval : T
}.

(** Modelled from the spec: the constructor [newKvPair(key, val)]. *)
Definition newKvPair (k : Z) (v : T) : KvPair := mkKvPair k v.

(** The struct [SkipList]: [head] points at the sentinel, [store] is the
    heap of nodes.  The field [r] is never read by the code ([randLevel]
    draws from the global generator) and is left out. *)
Record SkipList : Type := mkSkipList {
  maxLevel : Z;
  head : addr;
  store : list node
}.

Definition set_store (sl : SkipList) (st : list node) : SkipList :=
  mkSkipList (maxLevel sl) (head sl) st.

Definition set_val (n : node) (v : T) : node :=
  mkNode (key n) v (nextNodes n).

Definition set_nextNodes (n : node) (nx : list (option addr)) : node :=
  mkNode (key n) (val n) nx.

(** Dereferencing a pointer held in the structure. *)
Definition deref (st : list node) (a : addr) : result node :=
  match st !! a with
  | Some n => Ok n
  | None => Panic
  end.

(** [xs[l]] on a slice: panics out of range. *)
Definition index {A : Type} (xs : list A) (l : nat) : result A :=
  match xs !! l with
  | Some x => Ok x
  | None => Panic
  end.

(** [NewSkipList]: [nil] for a non-positive bound, else a head sentinel
    with zero key, zero value and a nil slice of forward pointers. *)
Definition NewSkipList (maxLevel : Z) : option SkipList :=
  if maxLevel <=? 0 then None
  else Some (mkSkipList maxLevel 0%nat [mkNode 0 zero_value []]).

(** [Level]: the length of the head's forward slice (0 for a nil head or
    a nil slice). *)
Definition Level (sl : SkipList) : nat :=
  match store sl !! head sl with
  | Some hd => length (nextNodes hd)
  | None => 0%nat
  end.

(** ** The search walk shared by [get], [ceil], [floor] and [Del] *)

(** The inner loop
    [for head.nextNodes[l] != nil && head.nextNodes[l].key < key]. *)
Fixpoint search_right (fuel : nat) (st : list node) (l : nat) (k : Z)
    (cur : addr) : result addr :=
  match fuel with
  | O => Diverge
  | S fuel' =>
      c ← deref st cur;
      nx ← index (nextNodes c) l;
      match nx with
      | None => Ok cur
      | Some a =>
          n ← deref st a;
          if key n <? k then search_right fuel' st l k a else Ok cur
      end
  end.

(** What the outer loop of [get], [ceil] and [floor] ends with: an early
    return of the node whose key equals the target, or the loop running
    out of levels with the local variable [head] at [cur]. *)
Inductive outcome : Type :=
  | Found (a : addr)
  | Bottom (cur : addr).

(** The outer loop [for l := len(head.nextNodes) - 1; l >= 0; l--] of
    [get], [ceil] and [floor], whose three bodies are the same text;
    [lv] is [l + 1]. *)
Fixpoint descend (st : list node) (k : Z) (lv : nat) (cur : addr)
    : result outcome :=
  match lv with
  | O => Ok (Bottom cur)
  | S l =>
      cur' ← search_right (S (length st)) st l k cur;
      c ← deref st cur';
      nx ← index (nextNodes c) l;
      match nx with
      | None => descend st k l cur'
      | Some a =>
          n ← deref st a;
          if key n =? k then Ok (Found a) else descend st k l cur'
      end
  end.

Definition get (sl : SkipList) (k : Z) : result (option addr) :=
  if Nat.eqb (Level sl) 0 then Ok None
  else
    r ← descend (store sl) k (Level sl) (head sl);
    match r with
    | Found a => Ok (Some a)
    | Bottom _ => Ok None
    end.

Definition ceil (sl : SkipList) (target : Z) : result (option addr) :=
  if Nat.eqb (Level sl) 0 then Ok None
  else
    r ← descend (store sl) target (Level sl) (head sl);
    match r with
    | Found a => Ok (Some a)
    | Bottom cur =>
        c ← deref (store sl) cur;
        index (nextNodes c) 0
    end.

Definition floor (sl : SkipList) (target : Z) : result (option addr) :=
  if Nat.eqb (Level sl) 0 then Ok None
  else
    r ← descend (store sl) target (Level sl) (head sl);
    match r with
    | Found a => Ok (Some a)
    | Bottom cur => Ok (Some cur)
    end.

(** ** The public queries *)

(** [Get] returns [(val, exist)]; the zero value and [false] when the key
    is not found. *)
Definition Get (sl : SkipList) (k : Z) : result (T * bool) :=
  if Nat.eqb (Level sl) 0 then Ok (zero_value, false)
  else
    p ← get sl k;
    match p with
    | Some a => n ← deref (store sl) a; Ok (val n, true)
    | None => Ok (zero_value, false)
    end.

Definition Ceil (sl : SkipList) (target : Z)
    : result (option KvPair * bool) :=
  if Nat.eqb (Level sl) 0 then Ok (None, false)
  else
    p ← ceil sl target;
    match p with
    | Some a =>
        n ← deref (store sl) a;
        Ok (Some (newKvPair (key n) (val n)), true)
    | None => Ok (None, false)
    end.

(** [floorNode != sl.head.nextNodes[0]] compares two pointers; the found
    branch then dereferences [floorNode]. *)
Definition Floor (sl : SkipList) (target : Z)
    : result (option KvPair * bool) :=
  if Nat.eqb (Level sl) 0 then Ok (None, false)
  else
    floorNode ← floor sl target;
    hd ← deref (store sl) (head sl);
    first ← index (nextNodes hd) 0;
    if decide (floorNode = first) then Ok (None, false)
    else
      match floorNode with
      | Some a =>
          n ← deref (store sl) a;
          Ok (Some (newKvPair (key n) (val n)), true)
      | None => Panic
      end.

(** The loop of [Range]:
    [for n := ceilingNode; n != nil && n.key <= end; n = n.nextNodes[0]]. *)
Fixpoint range_loop (fuel : nat) (st : list node) (e : Z)
    (p : option addr) (res : list KvPair) : result (list KvPair) :=
  match fuel with
  | O => Diverge
  | S fuel' =>
      match p with
      | None => Ok res
      | Some a =>
          n ← deref st a;
          if key n <=? e then
            nx ← index (nextNodes n) 0;
            range_loop fuel' st e nx (res ++ [newKvPair (key n) (val n)])
          else Ok res
      end
  end.

(** [Range] reads the structure and writes nothing, so it returns its
    result only; a nil and an empty slice are both the empty list. *)
Definition Range (sl : SkipList) (s e : Z) : result (list KvPair) :=
  if Nat.eqb (Level sl) 0 then Ok []
  else
    ceilingNode ← ceil sl s;
    match ceilingNode with
    | None => Ok []
    | Some _ => range_loop (S (length (store sl))) (store sl) e ceilingNode []
    end.

(** ** The level generator *)

(** [randLevel]: [for rand.Intn(2) == 0 && randL < sl.maxLevel { randL++ }].
    The generator is the injected capability of the spec: [coins i] is
    what the [i]-th call of [rand.Intn(2)] returns.  The counter stops at
    [maxLevel], so [maxLevel + 1] tests are always enough. *)
Fixpoint randLevel_loop (fuel : nat) (coins : nat → Z) (i : nat)
    (maxLevel randL : Z) : Z :=
  match fuel with
  | O => randL
  | S fuel' =>
      if (coins i =? 0) && (randL <? maxLevel)
      then randLevel_loop fuel' coins (S i) maxLevel (randL + 1)
      else randL
  end.

Definition randLevel (sl : SkipList) (coins : nat → Z) : Z :=
  randLevel_loop (S (Z.to_nat (maxLevel sl))) coins 0 (maxLevel sl) 0.

(** ** Put *)

(** The loop [for sl.Level()-1 < randL] that appends [nil] to the head's
    forward slice; it runs at most [randL + 1] times. *)
Fixpoint grow (fuel : nat) (sl : SkipList) (randL : Z) : SkipList :=
  match fuel with
  | O => sl
  | S fuel' =>
      if Z.of_nat (Level sl) - 1 <? randL then
        match store sl !! head sl with
        | Some hd =>
            grow fuel'
              (set_store sl
                 (<[head sl := set_nextNodes hd (nextNodes hd ++ [None])]>
                    (store sl)))
              randL
        | None => sl
        end
      else sl
  end.

(** The inner loop of [Put]:
    [for head.nextNodes[l] != nil && head.key < key].  It tests the key
    of the node the walk stands on, not the key of the next node. *)
Fixpoint put_right (fuel : nat) (st : list node) (l : nat) (k : Z)
    (cur : addr) : result addr :=
  match fuel with
  | O => Diverge
  | S fuel' =>
      c ← deref st cur;
      nx ← index (nextNodes c) l;
      match nx with
      | None => Ok cur
      | Some a => if key c <? k then put_right fuel' st l k a else Ok cur
      end
  end.

(** The outer loop of [Put], from [l = len(sl.head.nextNodes) - 1] down
    to 0, for the new node at address [n]; [lv] is [l + 1].  The two
    assignments [n.nextNodes[l] = head.nextNodes[l]] and
    [head.nextNodes[l] = n] index the slices of [n] and of [head] and
    panic out of range. *)
Fixpoint put_loop (st : list node) (k : Z) (n : addr) (lv : nat)
    (cur : addr) : result (list node) :=
  match lv with
  | O => Ok st
  | S l =>
      cur' ← put_right (S (length st)) st l k cur;
      c ← deref st cur';
      nx ← index (nextNodes c) l;
      nn ← deref st n;
      _ ← index (nextNodes nn) l;
      let st1 := <[n := set_nextNodes nn (<[l := nx]> (nextNodes nn))]> st in
      c1 ← deref st1 cur';
      _ ← index (nextNodes c1) l;
      let st2 :=
        <[cur' := set_nextNodes c1 (<[l := Some n]> (nextNodes c1))]> st1 in
      put_loop st2 k n l cur'
  end.

(** [Put]: the new node is allocated at the first free address of the
    arena. *)
Definition Put (sl : SkipList) (k : Z) (v : T) (coins : nat → Z)
    : result SkipList :=
  if Nat.eqb (Level sl) 0 then Ok sl
  else
    p ← get sl k;
    match p with
    | Some a =>
        n ← deref (store sl) a;
        Ok (set_store sl (<[a := set_val n v]> (store sl)))
    | None =>
        let randL := randLevel sl coins in
        let sl1 := grow (S (Z.to_nat randL)) sl randL in
        let n := length (store sl1) in
        let st := store sl1 ++ [newNode k v (replicate (Z.to_nat (randL + 1)) None)] in
        st' ← put_loop st k n (Level sl1) (head sl1);
        Ok (set_store sl1 st')
    end.

(** ** Del *)

(** The outer loop of [Del]: the walk of [get], then a splice when the
    next node's key equals the key. *)
Fixpoint del_loop (st : list node) (k : Z) (lv : nat) (cur : addr)
    : result (list node) :=
  match lv with
  | O => Ok st
  | S l =>
      cur' ← search_right (S (length st)) st l k cur;
      c ← deref st cur';
      nx ← index (nextNodes c) l;
      match nx with
      | None => del_loop st k l cur'
      | Some a =>
          n ← deref st a;
          if key n =? k then
            nx' ← index (nextNodes n) l;
            del_loop (<[cur' := set_nextNodes c (<[l := nx']> (nextNodes c))]> st)
              k l cur'
          else del_loop st k l cur'
      end
  end.

(** The loop that counts the trailing nil levels of the head, from
    [l = sl.Level() - 1] down, stopping at the first level in use. *)
Fixpoint cut_dif (nx : list (option addr)) (lv : nat) (dif : nat)
    : result nat :=
  match lv with
  | O => Ok dif
  | S l =>
      p ← index nx l;
      match p with
      | Some _ => Ok dif
      | None => cut_dif nx l (S dif)
      end
  end.

Definition Del (sl : SkipList) (k : Z) : result SkipList :=
  if Nat.eqb (Level sl) 0 then Ok sl
  else
    p ← get sl k;
    match p with
    | Some _ => Ok sl
    | None =>
        st' ← del_loop (store sl) k (Level sl) (head sl);
        hd ← deref st' (head sl);
        dif ← cut_dif (nextNodes hd) (length (nextNodes hd)) 0;
        Ok (set_store sl
              (<[head sl :=
                   set_nextNodes hd
                     (take (length (nextNodes hd) - dif) (nextNodes hd))]> st'))
    end.

End SkipList.

(** ** The representation invariant *)

Section Representation.

Context {T : Type} `{GoZero T}.

Implicit Types (st : list (@node T)) (sl : @SkipList T).
Implicit Types (L pre post : list addr) (Ls : list (list addr)).
Implicit Types (a b c : addr).

Definition keyOf st (a : addr) : Z :=
  match st !! a with
  | Some n => key n
  | None => 0
  end.

Definition kvOf st (a : addr) : @KvPair T :=
  match st !! a with
  | Some n => newKvPair (key n) (val n)
  | None => newKvPair 0 zero_value
  end.

(** [chain st l p L]: following the level-[l] forward pointers from the
    pointer [p] visits exactly the nodes [L] and then reaches [nil]. *)
Inductive chain st (l : nat) : option addr → list addr → Prop :=
  | chain_nil : chain st l None []
  | chain_cons a n q L :
      st !! a = Some n →
      nextNodes n !! l = Some q →
      chain st l q L →
      chain st l (Some a) (a :: L).

(** The leveled subsequence invariant of the spec, with the list [Ls] of
    the nodes on each level as its witness: the head has one slot per
    level; level [l] of the head leads through [Ls !! l]; keys ascend
    strictly along every level (so no two linked nodes share a key); the
    nodes of level [l + 1] are a subsequence of those of level [l]. *)
Record Rep sl Ls : Prop := mkRep {
  rep_level : Level sl = length Ls;
  rep_chain : ∀ l L, Ls !! l = Some L →
    chain (store sl) l (Some (head sl)) (head sl :: L);
  rep_sorted : ∀ l L, Ls !! l = Some L →
    StronglySorted Z.lt (keyOf (store sl) <$> L);
  rep_sub : ∀ l L L', Ls !! l = Some L → Ls !! S l = Some L' →
    sublist L' L
}.

(** The nodes of the base level, and the stored pairs in base-level
    order. *)
Definition base Ls : list addr := default [] (Ls !! 0%nat).

Definition contents sl Ls : list (@KvPair T) :=
  kvOf (store sl) <$> base Ls.

(** The node the walk stands on after passing the nodes [pre], having
    started at [c]. *)
Definition last_or (c : addr) pre : addr := default c (last pre).

(** What the spec asks of [Ceil] and [Floor] over the stored pairs [m]. *)
Definition is_ceiling (m : list (@KvPair T)) (target : Z)
    (r : option (@KvPair T) * bool) : Prop :=
  match r with
  | (Some kv, true) =>
      kv ∈ m ∧ target ≤ kkey kv ∧
      ∀ kv', kv' ∈ m → target ≤ kkey kv' → kkey kv ≤ kkey kv'
  | (None, false) => ∀ kv', kv' ∈ m → kkey kv' < target
  | _ => False
  end.

Definition is_floor (m : list (@KvPair T)) (target : Z)
    (r : option (@KvPair T) * bool) : Prop :=
  match r with
  | (Some kv, true) =>
      kv ∈ m ∧ kkey kv ≤ target ∧
      ∀ kv', kv' ∈ m → kkey kv' ≤ target → kkey kv' ≤ kkey kv
  | (None, false) => ∀ kv', kv' ∈ m → target < kkey kv'
  | _ => False
  end.

(** The pointer [p] is [nil] or points at a node whose key is at least
    [k]. *)
Definition at_least st (k : Z) (p : option addr) : Prop :=
  match p with
  | None => True
  | Some a => ∃ m, st !! a = Some m ∧ k ≤ key m
  end.

(** What a splice leaves alone in a node: its key, its value and the
    number of its forward slots. *)
Definition node_shape (n : @node T) : Z * T * nat :=
  (key n, val n, length (nextNodes n)).

(** The level lists after the node at [n], of [h] slots, has been linked
    behind the last node of each of the levels below [h]; levels that
    [Ls] does not have yet start empty. *)
Definition levels_snoc Ls (h : nat) (n : addr) : list (list addr) :=
  (λ L, L ++ [n]) <$> (Ls ++ replicate (h - length Ls) []).

(** The level lists after the node at [n], of [h] slots, has been linked
    right behind the head on each of the levels below [h]. *)
Definition levels_cons Ls (h : nat) (n : addr) : list (list addr) :=
  (λ L, n :: L) <$> (Ls ++ replicate (h - length Ls) []).

(** What the loop of [get], [ceil] and [floor] has established when it
    ends: an early return gives the base-level node that holds the key;
    falling through leaves the walk on the last node below the key, with
    no node holding the key. *)
Definition search_post sl Ls (k : Z) (r : outcome) : Prop :=
  match r with
  | Found a => a ∈ base Ls ∧ keyOf (store sl) a = k
  | Bottom c =>
      ∃ pre post, base Ls = pre ++ post ∧ c = last_or (head sl) pre ∧
        Forall (λ a, keyOf (store sl) a < k) pre ∧
        Forall (λ a, k < keyOf (store sl) a) post
  end.


End Representation.

(** ** Example containers, with [int] values *)

(** One level, one key: head -> 10. *)
Definition sl_one : @SkipList Z :=
  mkSkipList 4 0%nat
    [ mkNode 0 0 [Some 1%nat];
      mkNode 10 100 [None] ].

Definition Ls_one : list (list addr) := [[1%nat]].

(** Two levels, keys 10, 20, 30; the node of 20 is on both levels. *)
Definition sl_three : @SkipList Z :=
  mkSkipList 4 0%nat
    [ mkNode 0 0 [Some 1%nat; Some 2%nat];
      mkNode 10 100 [Some 2%nat];
      mkNode 20 200 [Some 3%nat; None];
      mkNode 30 300 [None] ].

Definition Ls_three : list (list addr) := [[1%nat; 2%nat; 3%nat]; [2%nat]].

(** Three levels, one key: the two top levels of the head are empty. *)
Definition sl_tall : @SkipList Z :=
  mkSkipList 4 0%nat
    [ mkNode 0 0 [Some 1%nat; None; None];
      mkNode 10 100 [None] ].

Definition Ls_tall : list (list addr) := [[1%nat]; []; []].

(** A generator whose every draw is 0: [randLevel] returns [maxLevel]. *)
Definition coins_zero : nat → Z := λ _, 0.

(** A generator whose every draw is 1: [randLevel] returns 0. *)
Definition coins_one : nat → Z := λ _, 1.

(** Proves [Rep] on a concrete container of at most two levels. *)
Ltac solve_rep :=
  constructor;
  [ reflexivity
  | intros [|[|l]] L HL; simplify_eq/=; repeat (econstructor; try reflexivity)
  | intros [|[|l]] L HL; simplify_eq/=; repeat constructor; lia
  | intros [|[|l]] L L' HL HL'; simplify_eq/=; repeat constructor ].

(** * Proofs *)

Section Correctness.

Context {T : Type} `{GoZero T}.

Implicit Types (st : list (@node T)) (sl : @SkipList T).
Implicit Types (L pre post : list addr) (Ls : list (list addr)).
Implicit Types (a b c : addr).

(** *** Chains *)

Lemma chain_det st l p L1 L2 :
  chain st l p L1 → chain st l p L2 → L1 = L2.
Proof.
  intros H1. revert L2.
  induction H1 as [|a n q L Ha Hq _ IH]; intros L2 H2; inversion H2; subst.
  - done.
  - f_equal. apply IH. congruence.
Qed.

Lemma chain_bound st l p L a : chain st l p L → a ∈ L → (a < length st)%nat.
Proof.
  induction 1 as [|b n q L Hb Hq _ IH]; intros Ha.
  - by apply elem_of_nil in Ha.
  - apply elem_of_cons in Ha as [->|Ha]; [by eapply lookup_lt_Some|auto].
Qed.

Lemma chain_suffix st l p pre a post :
  chain st l p (pre ++ a :: post) → chain st l (Some a) (a :: post).
Proof.
  revert p. induction pre as [|b pre IH]; intros p Hc; simpl in Hc.
  - inversion Hc; subst. econstructor; eauto.
  - inversion Hc; subst. eauto.
Qed.

(** The node reached after [pre] points, at level [l], at the first node
    of [post]. *)
Lemma chain_next st l c pre post :
  chain st l (Some c) (c :: pre ++ post) →
  ∃ n, st !! last_or c pre = Some n ∧ nextNodes n !! l = Some (hd_error post).
Proof.
  revert c. induction pre as [|b pre IH]; intros c Hc.
  - inversion Hc as [|? n q ? Hn Hq Hrest]; subst. exists n. split; [done|].
    rewrite Hq. f_equal. simpl in Hrest. inversion Hrest; by subst.
  - inversion Hc as [|? n q ? Hn Hq Hrest]; subst. simpl in Hrest.
    assert (q = Some b) as -> by (inversion Hrest; by subst).
    destruct (IH b Hrest) as (m & Hm & Hnx). exists m. split; [|done].
    unfold last_or in *. rewrite last_cons. by destruct (last pre).
Qed.

Lemma last_or_elem c pre : last_or c pre = c ∧ pre = [] ∨ last_or c pre ∈ pre.
Proof.
  unfold last_or. destruct (last pre) as [x|] eqn:E.
  - right. simpl. by apply last_Some_elem_of.
  - left. by apply last_None in E.
Qed.

Lemma last_or_cons c a pre : last_or c (a :: pre) = last_or a pre.
Proof. unfold last_or. rewrite last_cons. by destruct (last pre). Qed.

Lemma sorted_NoDup st L :
  StronglySorted Z.lt (keyOf st <$> L) → NoDup L.
Proof.
  induction L as [|a L IH]; simpl; intros Hs; [constructor|].
  apply StronglySorted_inv in Hs as [Hs Hall]. constructor; [|auto].
  intros Ha. rewrite Forall_forall in Hall.
  specialize (Hall (keyOf st a)). 
  assert (keyOf st a < keyOf st a); [|lia].
  apply Hall. by apply list_elem_of_fmap_2.
Qed.

Lemma chain_length st l p L :
  chain st l p L → StronglySorted Z.lt (keyOf st <$> L) →
  (length L ≤ length st)%nat.
Proof.
  intros Hc Hs.
  assert (L ⊆+ seq 0 (length st)) as Hsub.
  { apply NoDup_submseteq; [by eapply sorted_NoDup|].
    intros a Ha. apply elem_of_seq. split; [lia|].
    simpl. by eapply chain_bound. }
  apply submseteq_length in Hsub. by rewrite length_seq in Hsub.
Qed.

(** *** The rightward walk on one level *)

Lemma deref_Some st a n : st !! a = Some n → deref st a = Ok n.
Proof. unfold deref. by intros ->. Qed.

Lemma index_Some {A} (xs : list A) l x : xs !! l = Some x → index xs l = Ok x.
Proof. unfold index. by intros ->. Qed.

Lemma keyOf_Some st a n : st !! a = Some n → keyOf st a = key n.
Proof. unfold keyOf. by intros ->. Qed.

Lemma search_right_chain st l k post : ∀ c fuel,
  chain st l (Some c) (c :: post) →
  StronglySorted Z.lt (keyOf st <$> post) →
  (length post < fuel)%nat →
  ∃ p1 p2, post = p1 ++ p2 ∧
    Forall (λ a, keyOf st a < k) p1 ∧
    Forall (λ a, k ≤ keyOf st a) p2 ∧
    search_right fuel st l k c = Ok (last_or c p1).
Proof.
  induction post as [|a post IH]; intros c fuel Hc Hs Hf;
    (destruct fuel as [|fuel]; [simpl in Hf; lia|]);
    inversion Hc as [|? n q ? Hn Hq Hrest]; subst; simpl;
    rewrite (deref_Some _ _ _ Hn); simpl;
    rewrite (index_Some _ _ _ Hq); simpl.
  - inversion Hrest; subst. exists [], []. by repeat split.
  - inversion Hrest as [|? m q' ? Hm Hq' Hrest']; subst.
    rewrite (deref_Some _ _ _ Hm); simpl.
    simpl in Hs. apply StronglySorted_inv in Hs as [Hs Hall].
    destruct (Z.ltb_spec (key m) k) as [Hlt|Hge].
    + destruct (IH a fuel Hrest Hs) as (p1 & p2 & -> & Hp1 & Hp2 & Hrun);
        [simpl in Hf; lia|].
      exists (a :: p1), p2. rewrite last_or_cons. repeat split; try done.
      constructor; [by rewrite (keyOf_Some _ _ _ Hm)|done].
    + exists [], (a :: post). repeat split; try done.
      constructor; [by rewrite (keyOf_Some _ _ _ Hm)|].
      rewrite Forall_fmap in Hall. rewrite (keyOf_Some _ _ _ Hm) in Hall.
      eapply Forall_impl; [exact Hall|]. simpl. intros; lia.
Qed.

(** One level of the search: the walk starts on the head or on a node of
    the level whose key is below [k], and stops on the last node of the
    level whose key is below [k]. *)
Lemma level_walk st l k hd L cur :
  chain st l (Some hd) (hd :: L) →
  StronglySorted Z.lt (keyOf st <$> L) →
  cur = hd ∨ (cur ∈ L ∧ keyOf st cur < k) →
  ∃ pre post, L = pre ++ post ∧
    Forall (λ a, keyOf st a < k) pre ∧
    Forall (λ a, k ≤ keyOf st a) post ∧
    search_right (S (length st)) st l k cur = Ok (last_or hd pre).
Proof.
  intros Hc Hs Hcur.
  assert (length L ≤ length st)%nat as Hlen.
  { inversion Hc; subst. by eapply chain_length. }
  destruct Hcur as [->|[Hin Hk]].
  - destruct (search_right_chain st l k L hd (S (length st)))
      as (p1 & p2 & -> & ? & ? & ?); [done|done|lia|].
    by exists p1, p2.
  - apply list_elem_of_split in Hin as (pre0 & post0 & ->).
    assert (chain st l (Some cur) (cur :: post0)) as Hc'.
    { by apply (chain_suffix st l (Some hd) (hd :: pre0)). }
    rewrite fmap_app, fmap_cons in Hs.
    apply StronglySorted_app in Hs as (Hcross & Hs1 & Hs2).
    apply StronglySorted_inv in Hs2 as [Hs2 Hall].
    rewrite length_app in Hlen. simpl in Hlen.
    destruct (search_right_chain st l k post0 cur (S (length st)))
      as (p1 & p2 & -> & Hp1 & Hp2 & Hrun); [done|done|lia|].
    exists (pre0 ++ cur :: p1), p2. repeat split.
    + by rewrite <-app_assoc.
    + apply Forall_app. split; [|by constructor].
      apply Forall_forall. intros a Ha.
      assert (keyOf st a < keyOf st cur); [|lia].
      apply (Hcross (keyOf st a) (keyOf st cur));
        [by apply list_elem_of_fmap_2|left].
    + done.
    + rewrite Hrun. f_equal. unfold last_or.
      rewrite last_app, last_cons. by destruct (last p1).
Qed.

(** *** The descent through the levels *)

Lemma chain_lookup st l p L a : chain st l p L → a ∈ L → is_Some (st !! a).
Proof.
  induction 1 as [|b n q L Hb Hq _ IH]; intros Ha.
  - by apply elem_of_nil in Ha.
  - apply elem_of_cons in Ha as [->|Ha]; [by exists n|auto].
Qed.

Lemma base_lookup Ls L : Ls !! 0%nat = Some L → base Ls = L.
Proof. unfold base. by intros ->. Qed.

Lemma rep_incl sl Ls l L a :
  Rep sl Ls → Ls !! l = Some L → a ∈ L → a ∈ base Ls.
Proof.
  intros HR. revert L. induction l as [|l IH]; intros L HL Ha.
  - by rewrite (base_lookup _ _ HL).
  - destruct (lookup_lt_is_Some_2 Ls l) as [L' HL'].
    { apply lookup_lt_Some in HL. lia. }
    apply (IH L' HL'). eapply elem_of_sublist; [exact Ha|].
    by eapply rep_sub.
Qed.

Lemma rep_base_lookup sl Ls a :
  Rep sl Ls → a ∈ base Ls → is_Some (store sl !! a).
Proof.
  intros HR Ha. unfold base in Ha.
  destruct (Ls !! 0%nat) as [L0|] eqn:HL; simpl in Ha;
    [|by apply elem_of_nil in Ha].
  pose proof (rep_chain _ _ HR _ _ HL) as Hc.
  eapply chain_lookup; [exact Hc|]. by right.
Qed.

Lemma rep_base_sorted sl Ls :
  Rep sl Ls → StronglySorted Z.lt (keyOf (store sl) <$> base Ls).
Proof.
  intros HR. unfold base. destruct (Ls !! 0%nat) as [L0|] eqn:HL; simpl.
  - by eapply rep_sorted.
  - constructor.
Qed.

Lemma descend_level sl Ls k lv cur L :
  Rep sl Ls → Ls !! lv = Some L →
  cur = head sl ∨ (cur ∈ L ∧ keyOf (store sl) cur < k) →
  (∀ pre post, L = pre ++ post →
     Forall (λ a, keyOf (store sl) a < k) pre →
     Forall (λ a, k < keyOf (store sl) a) post →
     ∃ r, descend (store sl) k lv (last_or (head sl) pre) = Ok r ∧
          search_post sl Ls k r) →
  ∃ r, descend (store sl) k (S lv) cur = Ok r ∧ search_post sl Ls k r.
Proof.
  intros HR HL Hcur Hcont.
  pose proof (rep_chain _ _ HR _ _ HL) as Hc.
  pose proof (rep_sorted _ _ HR _ _ HL) as Hs.
  destruct (level_walk _ _ k _ _ cur Hc Hs Hcur)
    as (pre & post & -> & Hpre & Hpost & Hrun).
  destruct (chain_next _ _ _ _ _ Hc) as (n & Hn & Hnx).
  specialize (Hcont pre post eq_refl Hpre).
  cbn [descend]. rewrite Hrun. cbn [mbind result_bind].
  rewrite (deref_Some _ _ _ Hn). cbn [mbind result_bind].
  rewrite (index_Some _ _ _ Hnx). cbn [mbind result_bind].
  destruct post as [|a post]; cbn [hd_error]; [by apply Hcont|].
  destruct (chain_lookup _ _ _ _ a Hc) as [m Hm];
    [right; apply elem_of_app; right; by left|].
  rewrite (deref_Some _ _ _ Hm). cbn [mbind result_bind].
  destruct (Z.eqb_spec (key m) k) as [Heq|Hne].
  - eexists. split; [reflexivity|]. simpl. split.
    + eapply rep_incl; [done|exact HL|]. apply elem_of_app. right. by left.
    + by rewrite (keyOf_Some _ _ _ Hm).
  - apply Hcont.
    rewrite fmap_app, fmap_cons in Hs.
    apply StronglySorted_app_1_r, StronglySorted_inv in Hs as [_ Hall].
    rewrite Forall_fmap in Hall.
    apply Forall_cons in Hpost as [Ha _].
    rewrite (keyOf_Some _ _ _ Hm) in *.
    constructor; [rewrite (keyOf_Some _ _ _ Hm); lia|].
    eapply Forall_impl; [exact Hall|]. simpl. intros; lia.
Qed.

Lemma descend_spec sl Ls k :
  Rep sl Ls →
  ∀ lv cur L, Ls !! lv = Some L →
    cur = head sl ∨ (cur ∈ L ∧ keyOf (store sl) cur < k) →
    ∃ r, descend (store sl) k (S lv) cur = Ok r ∧ search_post sl Ls k r.
Proof.
  intros HR. induction lv as [|lv IH]; intros cur L HL Hcur;
    (eapply descend_level; [done|exact HL|done|]);
    intros pre post -> Hpre Hpost.
  - eexists. split; [reflexivity|]. simpl.
    exists pre, post. by rewrite (base_lookup _ _ HL).
  - destruct (lookup_lt_is_Some_2 Ls lv) as [L' HL'].
    { apply lookup_lt_Some in HL. lia. }
    apply (IH _ L' HL').
    destruct (last_or_elem (head sl) pre) as [[-> _]|Hin]; [by left|right].
    split.
    + eapply elem_of_sublist; [|by eapply (rep_sub _ _ HR lv)].
      apply elem_of_app. by left.
    + rewrite Forall_forall in Hpre. by apply Hpre.
Qed.

(** The search from the head, as [get], [ceil] and [floor] start it. *)
Lemma descend_head sl Ls k :
  Rep sl Ls → Level sl ≠ 0%nat →
  ∃ r, descend (store sl) k (Level sl) (head sl) = Ok r ∧
       search_post sl Ls k r.
Proof.
  intros HR Hlv. rewrite (rep_level _ _ HR) in *.
  destruct (length Ls) as [|lv] eqn:Hlen; [done|].
  destruct (lookup_lt_is_Some_2 Ls lv) as [L HL]; [lia|].
  eapply (descend_spec sl Ls k HR lv); [exact HL|by left].
Qed.

(** *** [ceil] and the base-level walk of [Range] *)

Lemma kkey_kvOf st a : kkey (kvOf st a) = keyOf st a.
Proof. unfold kvOf, keyOf. by destruct (st !! a). Qed.

Lemma kvOf_Some st a n :
  st !! a = Some n → kvOf st a = newKvPair (key n) (val n).
Proof. unfold kvOf. by intros ->. Qed.

Lemma rep_base_chain sl Ls :
  Rep sl Ls → Level sl ≠ 0%nat →
  chain (store sl) 0 (Some (head sl)) (head sl :: base Ls).
Proof.
  intros HR Hlv. rewrite (rep_level _ _ HR) in Hlv.
  destruct (lookup_lt_is_Some_2 Ls 0) as [L0 HL].
  { destruct Ls; simpl in *; [done|lia]. }
  rewrite (base_lookup _ _ HL). by eapply rep_chain.
Qed.

Lemma rep_level_0 sl Ls : Rep sl Ls → Level sl = 0%nat → base Ls = [].
Proof.
  intros HR Hlv. rewrite (rep_level _ _ HR) in Hlv.
  by destruct Ls.
Qed.

(** [ceil] returns the first base-level node whose key is not below the
    target, or [nil] when there is none. *)
Lemma ceil_spec sl Ls target :
  Rep sl Ls → Level sl ≠ 0%nat →
  ∃ pre post, base Ls = pre ++ post ∧
    Forall (λ a, keyOf (store sl) a < target) pre ∧
    Forall (λ a, target ≤ keyOf (store sl) a) post ∧
    ceil sl target = Ok (hd_error post).
Proof.
  intros HR Hlv. unfold ceil.
  destruct (Nat.eqb_spec (Level sl) 0) as [|_]; [done|].
  destruct (descend_head sl Ls target HR Hlv) as (r & -> & Hpost).
  cbn [mbind result_bind]. destruct r as [a|c]; simpl in Hpost.
  - destruct Hpost as [Hin Hk].
    apply list_elem_of_split in Hin as (pre & post & Hbase).
    pose proof (rep_base_sorted _ _ HR) as Hs. rewrite Hbase in Hs.
    rewrite fmap_app, fmap_cons in Hs.
    apply StronglySorted_app in Hs as (Hcross & _ & Hs2).
    apply StronglySorted_inv in Hs2 as [_ Hall].
    exists pre, (a :: post). split; [done|split; [|split; [|done]]].
    + apply Forall_forall. intros b Hb. rewrite <-Hk.
      apply (Hcross (keyOf (store sl) b) (keyOf (store sl) a));
        [by apply list_elem_of_fmap_2|left].
    + constructor; [lia|]. rewrite Forall_fmap in Hall.
      eapply Forall_impl; [exact Hall|]. simpl. intros; lia.
  - destruct Hpost as (pre & post & Hbase & -> & Hpre & Hgt).
    pose proof (rep_base_chain _ _ HR Hlv) as Hc. rewrite Hbase in Hc.
    destruct (chain_next _ _ _ _ _ Hc) as (n & Hn & Hnx).
    rewrite (deref_Some _ _ _ Hn). cbn [mbind result_bind].
    rewrite (index_Some _ _ _ Hnx).
    exists pre, post. repeat split; try done.
    eapply Forall_impl; [exact Hgt|]. simpl. intros; lia.
Qed.

Lemma range_loop_chain st e L : ∀ p fuel res,
  chain st 0 p L →
  StronglySorted Z.lt (keyOf st <$> L) →
  (length L < fuel)%nat →
  range_loop fuel st e p res =
    Ok (res ++ (kvOf st <$> filter (λ a, keyOf st a ≤ e) L)).
Proof.
  induction L as [|a L IH]; intros p fuel res Hc Hs Hf;
    (destruct fuel as [|fuel]; [simpl in Hf; lia|]);
    inversion Hc as [|? n q ? Hn Hq Hrest]; subst; simpl.
  - by rewrite app_nil_r.
  - rewrite (deref_Some _ _ _ Hn). cbn [mbind result_bind].
    simpl in Hs. apply StronglySorted_inv in Hs as [Hs Hall].
    destruct (Z.leb_spec (key n) e) as [Hle|Hgt].
    + rewrite (index_Some _ _ _ Hq). cbn [mbind result_bind].
      rewrite (IH q fuel); [|done|done|simpl in Hf; lia].
      rewrite filter_cons_True by (by rewrite (keyOf_Some _ _ _ Hn)).
      rewrite fmap_cons, (kvOf_Some _ _ _ Hn). by rewrite <-app_assoc.
    + rewrite filter_cons_False by (rewrite (keyOf_Some _ _ _ Hn); lia).
      replace (filter (λ a0, keyOf st a0 ≤ e) L) with (@nil addr);
        [by rewrite app_nil_r|].
      symmetry. rewrite Forall_fmap in Hall.
      rewrite (keyOf_Some _ _ _ Hn) in Hall.
      clear -Hall Hgt. induction Hall as [|b L Hb _ IHL]; [done|].
      rewrite filter_cons_False; [done|]. simpl in Hb. lia.
Qed.

Lemma filter_interval st s e pre post :
  Forall (λ a, keyOf st a < s) pre →
  Forall (λ a, s ≤ keyOf st a) post →
  filter (λ kv, s ≤ kkey kv ∧ kkey kv ≤ e) (kvOf st <$> pre ++ post) =
  kvOf st <$> filter (λ a, keyOf st a ≤ e) post.
Proof.
  intros Hpre Hpost. rewrite fmap_app, filter_app.
  replace (filter _ (kvOf st <$> pre)) with (@nil (@KvPair T)).
  - simpl. induction Hpost as [|a post Ha _ IH]; [done|].
    rewrite fmap_cons. destruct (decide (keyOf st a ≤ e)) as [Hle|Hgt].
    + rewrite !filter_cons_True; [|done|by rewrite kkey_kvOf].
      by rewrite fmap_cons, IH.
    + rewrite !filter_cons_False; [done|done|rewrite kkey_kvOf; lia].
  - symmetry. induction Hpre as [|a pre Ha _ IH]; [done|].
    rewrite fmap_cons, filter_cons_False; [done|].
    rewrite kkey_kvOf. lia.
Qed.

Lemma Range_filter sl Ls s e :
  Rep sl Ls →
  Range sl s e =
    Ok (filter (λ kv, s ≤ kkey kv ∧ kkey kv ≤ e) (contents sl Ls)).
Proof.
  intros HR. unfold Range, contents.
  destruct (Nat.eqb_spec (Level sl) 0) as [Hlv|Hlv].
  { by rewrite (rep_level_0 _ _ HR Hlv). }
  destruct (ceil_spec sl Ls s HR Hlv) as (pre & post & Hbase & Hpre & Hpost & ->).
  cbn [mbind result_bind]. rewrite Hbase, (filter_interval _ _ _ _ _ Hpre Hpost).
  destruct post as [|a post]; [done|]. cbn [hd_error].
  pose proof (rep_base_chain _ _ HR Hlv) as Hc.
  pose proof (rep_base_sorted _ _ HR) as Hs.
  rewrite Hbase in Hc, Hs.
  rewrite (range_loop_chain _ e (a :: post) (Some a) _ []); [done| | |].
  - by apply (chain_suffix _ _ (Some (head sl)) (head sl :: pre)).
  - rewrite fmap_app in Hs. by apply StronglySorted_app_1_r in Hs.
  - inversion Hc; subst.
    assert (length (pre ++ a :: post) ≤ length (store sl))%nat as Hlen
      by (by eapply chain_length).
    rewrite length_app in Hlen. lia.
Qed.

Lemma contents_sorted sl Ls :
  Rep sl Ls → StronglySorted Z.lt (kkey <$> contents sl Ls).
Proof.
  intros HR. unfold contents. rewrite <-list_fmap_compose.
  erewrite list_fmap_ext; [by apply rep_base_sorted|].
  intros i a _. simpl. apply kkey_kvOf.
Qed.

Lemma sorted_filter (P : @KvPair T → Prop) `{!∀ x, Decision (P x)} m :
  StronglySorted Z.lt (kkey <$> m) →
  StronglySorted Z.lt (kkey <$> filter P m).
Proof.
  induction m as [|kv m IH]; [done|]. rewrite fmap_cons.
  intros [Hall Hs]%StronglySorted_cons.
  destruct (decide (P kv)).
  - rewrite filter_cons_True by done. rewrite fmap_cons.
    apply StronglySorted_cons. split; [|auto].
    rewrite Forall_fmap in *. rewrite Forall_forall in *.
    intros x [_ Hx]%list_elem_of_filter. by apply Hall.
  - rewrite filter_cons_False by done. auto.
Qed.

(** *** [get] on a stored key *)

Lemma sorted_key_inj st L a b :
  StronglySorted Z.lt (keyOf st <$> L) →
  a ∈ L → b ∈ L → keyOf st a = keyOf st b → a = b.
Proof.
  induction L as [|c L IH]; intros Hs Ha Hb Hk;
    [by apply elem_of_nil in Ha|].
  rewrite fmap_cons in Hs. apply StronglySorted_inv in Hs as [Hs Hall].
  rewrite Forall_fmap, Forall_forall in Hall.
  apply elem_of_cons in Ha as [->|Ha]; apply elem_of_cons in Hb as [->|Hb].
  - done.
  - specialize (Hall _ Hb). simpl in Hall. lia.
  - specialize (Hall _ Ha). simpl in Hall. lia.
  - by apply IH.
Qed.

Lemma rep_nonempty_level sl Ls a :
  Rep sl Ls → a ∈ base Ls → Level sl ≠ 0%nat.
Proof.
  intros HR Ha Hlv. rewrite (rep_level_0 _ _ HR Hlv) in Ha.
  by apply elem_of_nil in Ha.
Qed.

Lemma get_present sl Ls a :
  Rep sl Ls → a ∈ base Ls → get sl (keyOf (store sl) a) = Ok (Some a).
Proof.
  intros HR Ha. pose proof (rep_nonempty_level _ _ _ HR Ha) as Hlv.
  unfold get. destruct (Nat.eqb_spec (Level sl) 0) as [|_]; [done|].
  destruct (descend_head sl Ls (keyOf (store sl) a) HR Hlv) as (r & -> & Hpost).
  cbn [mbind result_bind]. destruct r as [b|c]; simpl in Hpost.
  - destruct Hpost as [Hb Hk]. do 2 f_equal.
    eapply sorted_key_inj; [by apply rep_base_sorted|done|done|done].
  - destruct Hpost as (pre & post & Hbase & _ & Hpre & Hgt).
    rewrite Hbase in Ha. rewrite Forall_forall in Hpre, Hgt.
    apply elem_of_app in Ha as [Ha|Ha];
      [specialize (Hpre _ Ha)|specialize (Hgt _ Ha)]; simpl in *; lia.
Qed.

(** *** Stores that differ in values only *)

Lemma chain_same_level st st' l p L :
  (∀ b, (λ n, nextNodes n !! l) <$> st' !! b =
        (λ n, nextNodes n !! l) <$> st !! b) →
  chain st l p L → chain st' l p L.
Proof.
  intros Hsame. induction 1 as [|a n q L Hn Hq _ IH]; [constructor|].
  pose proof (Hsame a) as Ha. rewrite Hn in Ha.
  destruct (st' !! a) as [n'|] eqn:Hn'; [|done].
  simpl in Ha. injection Ha as Ha.
  econstructor; [exact Hn'|by rewrite Ha|done].
Qed.

Lemma chain_same_links st st' l p L :
  (∀ b, nextNodes <$> st' !! b = nextNodes <$> st !! b) →
  chain st l p L → chain st' l p L.
Proof.
  intros Hsame. apply chain_same_level. intros b. specialize (Hsame b).
  destruct (st' !! b), (st !! b); simpl in *; congruence.
Qed.

Lemma keyOf_same_keys st st' a :
  (∀ b, key <$> st' !! b = key <$> st !! b) → keyOf st' a = keyOf st a.
Proof.
  intros Hsame. unfold keyOf. specialize (Hsame a).
  destruct (st' !! a), (st !! a); simpl in Hsame; congruence.
Qed.

Lemma lookup_set_val st a n v b :
  st !! a = Some n →
  <[a := set_val n v]> st !! b =
    if decide (a = b) then Some (set_val n v) else st !! b.
Proof.
  intros Hn. destruct (decide (a = b)) as [<-|Hne].
  - apply list_lookup_insert_eq. by eapply lookup_lt_Some.
  - by apply list_lookup_insert_ne.
Qed.

Lemma Rep_set_val sl Ls a n v :
  Rep sl Ls → store sl !! a = Some n →
  Rep (set_store sl (<[a := set_val n v]> (store sl))) Ls.
Proof.
  intros HR Hn.
  assert (∀ b, nextNodes <$> <[a := set_val n v]> (store sl) !! b =
               nextNodes <$> store sl !! b) as Hlinks.
  { intros b. rewrite (lookup_set_val _ _ _ _ _ Hn).
    destruct (decide (a = b)) as [<-|]; [by rewrite Hn|done]. }
  assert (∀ b, key <$> <[a := set_val n v]> (store sl) !! b =
               key <$> store sl !! b) as Hkeys.
  { intros b. rewrite (lookup_set_val _ _ _ _ _ Hn).
    destruct (decide (a = b)) as [<-|]; [by rewrite Hn|done]. }
  constructor; simpl.
  - rewrite <-(rep_level _ _ HR). unfold Level. simpl.
    specialize (Hlinks (head sl)).
    destruct (_ !! head sl), (store sl !! head sl); simpl in Hlinks;
      congruence.
  - intros l L HL. eapply chain_same_links; [exact Hlinks|].
    by eapply rep_chain.
  - intros l L HL. erewrite list_fmap_ext; [by eapply rep_sorted|].
    intros i b _. by apply keyOf_same_keys.
  - apply (rep_sub _ _ HR).
Qed.

Lemma sorted_keys_NoDup (m : list (@KvPair T)) :
  StronglySorted Z.lt (kkey <$> m) → NoDup m.
Proof.
  induction m as [|kv m IH]; [constructor|]. rewrite fmap_cons.
  intros [Hall Hs]%StronglySorted_cons. constructor; [|auto].
  intros Hin. rewrite Forall_fmap, Forall_forall in Hall.
  specialize (Hall _ Hin). simpl in Hall. lia.
Qed.

Lemma filter_other_keys st k L :
  Forall (λ b, keyOf st b ≠ k) L →
  filter (λ kv, kkey kv = k) (kvOf st <$> L) = [].
Proof.
  induction 1 as [|b L Hb _ IH]; [done|].
  rewrite fmap_cons, filter_cons_False; [done|]. by rewrite kkey_kvOf.
Qed.

(** *** The bounded loops of [Put] run to their exit test *)

Lemma randLevel_loop_bounds coins maxL : ∀ fuel i r,
  r ≤ maxL → r ≤ randLevel_loop fuel coins i maxL r ≤ maxL.
Proof.
  induction fuel as [|fuel IH]; intros i r Hr; simpl; [lia|].
  destruct (coins i =? 0); simpl; [|lia].
  destruct (Z.ltb_spec r maxL); [|lia].
  specialize (IH (S i) (r + 1)). lia.
Qed.

(** One more test than the fuel allows changes nothing: the loop has
    left by its own condition. *)
Lemma randLevel_loop_fuel coins maxL : ∀ fuel i r,
  r ≤ maxL → maxL - r < Z.of_nat fuel →
  randLevel_loop (S fuel) coins i maxL r = randLevel_loop fuel coins i maxL r.
Proof.
  induction fuel as [|fuel IH]; intros i r Hr Hf; [lia|].
  cbn [randLevel_loop].
  destruct (coins i =? 0); simpl; [|done].
  destruct (Z.ltb_spec r maxL); [|done].
  apply (IH (S i) (r + 1)); lia.
Qed.

Lemma randLevel_bounds sl coins :
  0 ≤ maxLevel sl → 0 ≤ randLevel sl coins ≤ maxLevel sl.
Proof. intros Hm. by apply randLevel_loop_bounds. Qed.

Lemma grow_exit randL : ∀ fuel sl,
  is_Some (store sl !! head sl) →
  randL + 1 - Z.of_nat (Level sl) ≤ Z.of_nat fuel →
  randL ≤ Z.of_nat (Level (grow fuel sl randL)) - 1.
Proof.
  induction fuel as [|fuel IH]; intros sl [hd Hhd] Hf; simpl; [lia|].
  destruct (Z.ltb_spec (Z.of_nat (Level sl) - 1) randL) as [Hlt|]; [|lia].
  rewrite Hhd.
  assert (<[head sl := set_nextNodes hd (nextNodes hd ++ [None])]>
            (store sl) !! head sl =
          Some (set_nextNodes hd (nextNodes hd ++ [None]))) as Hhd'.
  { apply list_lookup_insert_eq. by eapply lookup_lt_Some. }
  apply IH; simpl; [by eexists|].
  unfold Level in *. simpl. rewrite Hhd'. rewrite Hhd in Hf. simpl.
  rewrite length_app. simpl. lia.
Qed.

(** *** [Del] keeps the invariant and the stored pairs *)

(** Where the search of [get] falls through every level, the loop of
    [Del], which takes the same walk, finds nothing to splice. *)
Lemma del_loop_no_match st k : ∀ lv cur c,
  descend st k lv cur = Ok (Bottom c) → del_loop st k lv cur = Ok st.
Proof.
  induction lv as [|lv IH]; intros cur c Hrun; [done|].
  cbn [descend] in Hrun. cbn [del_loop].
  destruct (search_right _ st lv k cur) as [cur'| |]; try discriminate.
  cbn [mbind result_bind] in *. unfold deref, index in *.
  destruct (st !! cur') as [n|]; [|discriminate].
  cbn [mbind result_bind] in *.
  destruct (nextNodes n !! lv) as [[a|]|]; [| |discriminate];
    cbn [mbind result_bind] in *; [|by eapply IH].
  destruct (st !! a) as [m|]; [|discriminate].
  cbn [mbind result_bind] in *.
  destruct (key m =? k); [discriminate|by eapply IH].
Qed.

Lemma cut_dif_spec (nx : list (option addr)) : ∀ lv dif,
  (lv ≤ length nx)%nat →
  ∃ d, cut_dif nx lv dif = Ok d ∧ (dif ≤ d ≤ dif + lv)%nat ∧
    ∀ l, (lv - (d - dif) ≤ l < lv)%nat → nx !! l = Some None.
Proof.
  induction lv as [|lv IH]; intros dif Hlv; simpl.
  { exists dif. split; [done|]. split; [lia|]. intros l Hl. lia. }
  destruct (lookup_lt_is_Some_2 nx lv) as [p Hp]; [lia|].
  rewrite (index_Some _ _ _ Hp). cbn [mbind result_bind].
  destruct p as [a|].
  - exists dif. split; [done|]. split; [lia|]. intros l Hl. lia.
  - destruct (IH (S dif)) as (d & Hd & Hbound & Hnil); [lia|].
    exists d. split; [done|]. split; [lia|]. intros l Hl.
    destruct (decide (l = lv)) as [->|]; [done|]. apply Hnil. lia.
Qed.

Lemma rep_head_lookup sl Ls :
  Rep sl Ls → Level sl ≠ 0%nat →
  ∃ hd, store sl !! head sl = Some hd ∧ length (nextNodes hd) = length Ls.
Proof.
  intros HR Hlv. pose proof (rep_level _ _ HR) as Hlen.
  unfold Level in *. destruct (store sl !! head sl) as [hd|]; [|done].
  by exists hd.
Qed.

(** Dropping the top levels of the head keeps the invariant on the
    levels that stay. *)
Lemma Rep_trim sl Ls hd keep :
  Rep sl Ls → store sl !! head sl = Some hd →
  Rep (set_store sl
         (<[head sl := set_nextNodes hd (take keep (nextNodes hd))]>
            (store sl)))
      (take keep Ls).
Proof.
  intros HR Hhd.
  assert (head sl < length (store sl))%nat as Hlt
    by (by eapply lookup_lt_Some).
  assert (length (nextNodes hd) = length Ls) as Hlen.
  { rewrite <-(rep_level _ _ HR). unfold Level. by rewrite Hhd. }
  set (st' := <[head sl := _]> (store sl)).
  assert (∀ b, key <$> st' !! b = key <$> store sl !! b) as Hkeys.
  { intros b. unfold st'. destruct (decide (head sl = b)) as [<-|Hne].
    - by rewrite list_lookup_insert_eq, Hhd.
    - by rewrite list_lookup_insert_ne. }
  constructor; simpl; fold st'.
  - unfold Level. simpl. fold st'. unfold st'.
    rewrite list_lookup_insert_eq by done. simpl.
    rewrite !length_take. lia.
  - intros l L HL. apply lookup_take_Some in HL as [HL Hl].
    eapply chain_same_level; [|by eapply rep_chain].
    intros b. unfold st'. destruct (decide (head sl = b)) as [<-|Hne].
    + rewrite list_lookup_insert_eq, Hhd by done. simpl.
      by rewrite lookup_take_lt.
    + by rewrite list_lookup_insert_ne.
  - intros l L HL. apply lookup_take_Some in HL as [HL Hl].
    erewrite list_fmap_ext; [by eapply rep_sorted|].
    intros i b _. by apply keyOf_same_keys.
  - intros l L L' HL HL'.
    apply lookup_take_Some in HL as [HL _].
    apply lookup_take_Some in HL' as [HL' _].
    by eapply rep_sub.
Qed.

(** On a container that satisfies the invariant, [Del] returns, and what
    it returns satisfies the invariant and stores the same pairs: it
    never splices (a present key is skipped by the guard, an absent key
    has no node), it only drops the empty top levels of the head. *)
Lemma Del_keeps_invariant sl Ls k :
  Rep sl Ls →
  ∃ sl' Ls', Del sl k = Ok sl' ∧ Rep sl' Ls' ∧
    contents sl' Ls' = contents sl Ls.
Proof.
  intros HR. unfold Del, get.
  destruct (Nat.eqb_spec (Level sl) 0) as [Hlv|Hlv]; [by exists sl, Ls|].
  destruct (descend_head sl Ls k HR Hlv) as (r & Hd & _). rewrite Hd.
  cbn [mbind result_bind]. destruct r as [a|c]; [by exists sl, Ls|].
  cbn [mbind result_bind]. rewrite (del_loop_no_match _ _ _ _ _ Hd).
  cbn [mbind result_bind].
  destruct (rep_head_lookup _ _ HR Hlv) as (hd & Hhd & Hlen).
  rewrite (deref_Some _ _ _ Hhd). cbn [mbind result_bind].
  destruct (cut_dif_spec (nextNodes hd) (length (nextNodes hd)) 0)
    as (d & -> & Hbound & Hnil); [done|].
  cbn [mbind result_bind].
  remember (length (nextNodes hd) - d)%nat as keep eqn:Hk.
  pose proof (rep_level _ _ HR) as Hlevel.
  eexists _, (take keep Ls). split; [done|].
  split; [by apply Rep_trim|].
  unfold contents. simpl.
  assert (base (take keep Ls) = base Ls) as ->.
  { unfold base. destruct keep as [|keep'].
    - rewrite take_0. simpl.
      destruct (Ls !! 0%nat) as [L0|] eqn:HL0; [simpl|done].
      pose proof (rep_chain _ _ HR _ _ HL0) as Hc.
      inversion Hc as [|? n q ? Hn Hq Hrest]; subst.
      assert (n = hd) as -> by congruence.
      rewrite Hnil in Hq by lia. injection Hq as <-. by inversion Hrest.
    - by rewrite lookup_take_lt by lia. }
  apply list_fmap_ext. intros i b _. unfold kvOf.
  destruct (decide (head sl = b)) as [<-|Hne].
  - rewrite list_lookup_insert_eq by (by eapply lookup_lt_Some).
    by rewrite Hhd.
  - by rewrite list_lookup_insert_ne.
Qed.

(** *** [Get] and [Floor] return *)

Lemma Get_returns sl Ls k : Rep sl Ls → ∃ r, Get sl k = Ok r.
Proof.
  intros HR. unfold Get, get.
  destruct (Nat.eqb_spec (Level sl) 0) as [Hlv|Hlv]; [by eexists|].
  destruct (descend_head sl Ls k HR Hlv) as (r & -> & Hpost).
  cbn [mbind result_bind]. destruct r as [a|c]; [|by eexists].
  cbn [mbind result_bind]. destruct Hpost as [Ha _].
  destruct (rep_base_lookup _ _ _ HR Ha) as [n Hn].
  rewrite (deref_Some _ _ _ Hn). by eexists.
Qed.

Lemma Floor_returns sl Ls k : Rep sl Ls → ∃ r, Floor sl k = Ok r.
Proof.
  intros HR. unfold Floor, floor.
  destruct (Nat.eqb_spec (Level sl) 0) as [Hlv|Hlv]; [by eexists|].
  destruct (rep_head_lookup _ _ HR Hlv) as (hd & Hhd & Hlen).
  destruct (lookup_lt_is_Some_2 (nextNodes hd) 0) as [first Hfirst].
  { rewrite Hlen, <-(rep_level _ _ HR). lia. }
  destruct (descend_head sl Ls k HR Hlv) as (r & -> & Hpost).
  cbn [mbind result_bind].
  assert (∃ a n, (match r with Found a => Ok (Some a)
                  | Bottom cur => Ok (Some cur) end) = Ok (Some a) ∧
                 store sl !! a = Some n) as (a & n & -> & Hn).
  { destruct r as [a|c]; simpl in Hpost.
    - destruct Hpost as [Ha _].
      destruct (rep_base_lookup _ _ _ HR Ha) as [n Hn]. by exists a, n.
    - destruct Hpost as (pre & post & Hbase & -> & _).
      destruct (last_or_elem (head sl) pre) as [[-> _]|Hin];
        [by exists (head sl), hd|].
      destruct (rep_base_lookup sl Ls (last_or (head sl) pre) HR) as [n Hn].
      { rewrite Hbase. apply elem_of_app. by left. }
      by eexists _, n. }
  cbn [mbind result_bind].
  rewrite (deref_Some _ _ _ Hhd). cbn [mbind result_bind].
  rewrite (index_Some _ _ _ Hfirst). cbn [mbind result_bind].
  destruct (decide (Some a = first)); [by eexists|].
  rewrite (deref_Some _ _ _ Hn). by eexists.
Qed.

(** *** What the walk guarantees on any store *)

(** These facts need no invariant: they read off the exit tests of the
    loops. *)

Lemma search_right_exit st l k : ∀ fuel c c',
  search_right fuel st l k c = Ok c' →
  ∃ n nx, st !! c' = Some n ∧ nextNodes n !! l = Some nx ∧ at_least st k nx.
Proof.
  induction fuel as [|fuel IH]; intros c c' Hrun; [discriminate|].
  simpl in Hrun. unfold deref, index in Hrun.
  destruct (st !! c) as [n|] eqn:Hn; [|discriminate].
  cbn [mbind result_bind] in Hrun.
  destruct (nextNodes n !! l) as [[a|]|] eqn:Hnx; [| |discriminate];
    cbn [mbind result_bind] in Hrun.
  - destruct (st !! a) as [m|] eqn:Hm; [|discriminate].
    cbn [mbind result_bind] in Hrun.
    destruct (Z.ltb_spec (key m) k) as [Hlt|Hge]; [by eapply IH|].
    injection Hrun as <-. exists n, (Some a). repeat split; try done.
    by exists m.
  - injection Hrun as <-. by exists n, None.
Qed.

Lemma descend_exit st k : ∀ lv cur r,
  descend st k lv cur = Ok r →
  match r with
  | Found a => ∃ m, st !! a = Some m ∧ key m = k
  | Bottom c =>
      lv = 0%nat ∨
      ∃ n nx, st !! c = Some n ∧ nextNodes n !! 0%nat = Some nx ∧
              at_least st k nx
  end.
Proof.
  induction lv as [|lv IH]; intros cur r Hrun.
  { injection Hrun as <-. by left. }
  cbn [descend] in Hrun.
  destruct (search_right _ st lv k cur) as [cur'| |] eqn:Hsr;
    try discriminate.
  cbn [mbind result_bind] in Hrun. unfold deref, index in Hrun.
  destruct (st !! cur') as [n|] eqn:Hn; [|discriminate].
  cbn [mbind result_bind] in Hrun.
  destruct (nextNodes n !! lv) as [nx|] eqn:Hnx; [|discriminate].
  cbn [mbind result_bind] in Hrun.
  assert (descend st k lv cur' = Ok r →
          match r with
          | Found a => ∃ m, st !! a = Some m ∧ key m = k
          | Bottom c =>
              S lv = 0%nat ∨
              ∃ n nx, st !! c = Some n ∧ nextNodes n !! 0%nat = Some nx ∧
                      at_least st k nx
          end) as Hcont.
  { intros Hrun'. pose proof (IH _ _ Hrun') as Hr.
    destruct r as [a|c]; [done|]. right.
    destruct Hr as [->|Hr]; [|done].
    injection Hrun' as <-. by eapply search_right_exit. }
  destruct nx as [a|]; [|by apply Hcont].
  destruct (st !! a) as [m|] eqn:Hm; [|discriminate].
  cbn [mbind result_bind] in Hrun.
  destruct (Z.eqb_spec (key m) k) as [Heq|Hne]; [|by apply Hcont].
  injection Hrun as <-. by exists m.
Qed.

Lemma ceil_exit sl target p :
  ceil sl target = Ok p → at_least (store sl) target p.
Proof.
  unfold ceil. destruct (Nat.eqb_spec (Level sl) 0) as [Hlv|Hlv].
  { by intros [= <-]. }
  destruct (descend _ target _ _) as [r| |] eqn:Hd; try discriminate.
  cbn [mbind result_bind]. apply descend_exit in Hd.
  destruct r as [a|c].
  - intros [= <-]. destruct Hd as (m & Hm & Hk). exists m. split; [done|lia].
  - destruct Hd as [Hd|(n & nx & Hn & Hnx & Hge)]; [done|].
    rewrite (deref_Some _ _ _ Hn). cbn [mbind result_bind].
    rewrite (index_Some _ _ _ Hnx). by intros [= <-].
Qed.

(** Whatever the links of the store are, a [Range] over an inverted
    interval that returns has collected nothing: its first node has a key
    that is at least [s], hence above [e]. *)
Lemma Range_inverted_any sl s e res :
  e < s → Range sl s e = Ok res → res = [].
Proof.
  intros Hlt. unfold Range.
  destruct (Nat.eqb_spec (Level sl) 0) as [Hlv|Hlv]; [by intros [= <-]|].
  destruct (ceil sl s) as [p| |] eqn:Hc; try discriminate.
  cbn [mbind result_bind]. apply ceil_exit in Hc.
  destruct p as [a|]; [|by intros [= <-]].
  destruct Hc as (m & Hm & Hk). cbn [range_loop].
  rewrite (deref_Some _ _ _ Hm). cbn [mbind result_bind].
  destruct (Z.leb_spec (key m) e) as [|_]; [lia|]. by intros [= <-].
Qed.

(** ** The claims that hold *)

(** C7: on every container that satisfies the invariant, [Ceil target]
    returns normally; when it reports found, its pair is a stored pair
    whose key is the smallest stored key at or above [target]; it reports
    not-found exactly when every stored key is below [target]. *)
Theorem Ceil_smallest_key_at_least sl Ls target :
  Rep sl Ls →
  ∃ r, Ceil sl target = Ok r ∧ is_ceiling (contents sl Ls) target r.
Proof.
  intros HR. unfold Ceil, contents.
  destruct (Nat.eqb_spec (Level sl) 0) as [Hlv|Hlv].
  { eexists. split; [done|]. simpl. rewrite (rep_level_0 _ _ HR Hlv).
    intros kv' Hin. by apply elem_of_nil in Hin. }
  destruct (ceil_spec sl Ls target HR Hlv)
    as (pre & post & Hbase & Hpre & Hpost & ->).
  cbn [mbind result_bind]. rewrite Hbase.
  rewrite Forall_forall in Hpre. destruct post as [|a post]; cbn [hd_error].
  - eexists. split; [done|]. simpl. rewrite app_nil_r.
    intros kv' (b & -> & Hb)%list_elem_of_fmap. rewrite kkey_kvOf.
    by apply Hpre.
  - destruct (rep_base_lookup sl Ls a HR) as [n Hn].
    { rewrite Hbase. apply elem_of_app. right. left. }
    rewrite (deref_Some _ _ _ Hn). cbn [mbind result_bind].
    eexists. split; [done|]. simpl.
    apply Forall_cons in Hpost as [Ha _].
    pose proof (keyOf_Some _ _ _ Hn) as Hka.
    split; [|split].
    + rewrite <-(kvOf_Some _ _ _ Hn).
      apply list_elem_of_fmap_2, elem_of_app. right. left.
    + lia.
    + intros kv' (b & -> & Hb)%list_elem_of_fmap. rewrite kkey_kvOf.
      intros Hle. apply elem_of_app in Hb as [Hb|Hb].
      { specialize (Hpre _ Hb). simpl in Hpre. lia. }
      apply elem_of_cons in Hb as [->|Hb]; [lia|].
      pose proof (rep_base_sorted _ _ HR) as Hs.
      rewrite Hbase, fmap_app, fmap_cons in Hs.
      apply StronglySorted_app_1_r, StronglySorted_inv in Hs as [_ Hall].
      rewrite Forall_fmap, Forall_forall in Hall.
      specialize (Hall _ Hb). simpl in Hall. lia.
Qed.

(** C6: on every container that satisfies the invariant, [Range s e]
    returns normally and its result is the stored pairs with
    [s <= key <= e], in base-level order: a pair is returned if and only
    if it is stored and its key lies in the closed interval, the keys of
    the result ascend strictly (no duplicates), and the result is empty
    when no stored key lies in the interval. *)
Theorem Range_exact sl Ls s e :
  Rep sl Ls →
  ∃ res, Range sl s e = Ok res ∧
    res = filter (λ kv, s ≤ kkey kv ∧ kkey kv ≤ e) (contents sl Ls) ∧
    (∀ kv, kv ∈ res ↔ kv ∈ contents sl Ls ∧ s ≤ kkey kv ∧ kkey kv ≤ e) ∧
    StronglySorted Z.lt (kkey <$> res) ∧
    NoDup res ∧
    ((∀ kv, kv ∈ contents sl Ls → ¬ (s ≤ kkey kv ∧ kkey kv ≤ e)) →
     res = []).
Proof.
  intros HR. eexists. split; [by apply Range_filter|].
  set (res := filter _ _).
  assert (∀ kv, kv ∈ res ↔ kv ∈ contents sl Ls ∧ s ≤ kkey kv ∧ kkey kv ≤ e)
    as Hmem.
  { intros kv. unfold res. rewrite list_elem_of_filter. tauto. }
  assert (StronglySorted Z.lt (kkey <$> res)) as Hs.
  { apply sorted_filter. by apply contents_sorted. }
  split; [done|]. split; [done|]. split; [done|].
  split; [by apply sorted_keys_NoDup|].
  intros Hnone. destruct res as [|kv res'] eqn:E; [done|].
  exfalso. apply (Hnone kv); apply (Hmem kv); left.
Qed.

(** C10: for bounds with [end < start], [Range start end] returns the
    empty sequence on every container that satisfies the invariant; and
    on any container at all, a [Range start end] that returns, returns
    the empty sequence.  [Range] only reads: it yields a result and no
    new container. *)
Theorem Range_inverted_bounds_empty sl s e :
  e < s →
  (∀ Ls, Rep sl Ls → Range sl s e = Ok []) ∧
  (∀ res, Range sl s e = Ok res → res = []).
Proof.
  intros Hlt. split.
  - intros Ls HR. pose proof (Range_filter _ _ s e HR) as Hrun.
    by rewrite (Range_inverted_any _ _ _ _ Hlt Hrun) in Hrun.
  - intros res. by apply Range_inverted_any.
Qed.

(** C8: on every container that satisfies the invariant and stores the
    key [k] in the node at [a], [Put k v2] returns the container with the
    value of that node set to [v2] and nothing else changed: no node is
    allocated, every node keeps its key and its forward links (so its
    height), the invariant holds with the same level lists, the stored
    keys are the same, and exactly one stored pair has key [k], with
    value [v2]. *)
Theorem Put_existing_key_in_place sl Ls a n v2 coins :
  Rep sl Ls → a ∈ base Ls → store sl !! a = Some n →
  ∃ sl', Put sl (key n) v2 coins = Ok sl' ∧
    store sl' = <[a := set_val n v2]> (store sl) ∧
    head sl' = head sl ∧ maxLevel sl' = maxLevel sl ∧
    length (store sl') = length (store sl) ∧
    (∀ b, nextNodes <$> store sl' !! b = nextNodes <$> store sl !! b) ∧
    (∀ b, key <$> store sl' !! b = key <$> store sl !! b) ∧
    Rep sl' Ls ∧
    kkey <$> contents sl' Ls = kkey <$> contents sl Ls ∧
    filter (λ kv, kkey kv = key n) (contents sl' Ls) =
      [newKvPair (key n) v2].
Proof.
  intros HR Ha Hn.
  pose proof (rep_nonempty_level _ _ _ HR Ha) as Hlv.
  pose proof (get_present _ _ _ HR Ha) as Hget.
  rewrite (keyOf_Some _ _ _ Hn) in Hget.
  assert (∀ b, key <$> <[a := set_val n v2]> (store sl) !! b =
               key <$> store sl !! b) as Hkeys.
  { intros b. rewrite (lookup_set_val _ _ _ _ _ Hn).
    destruct (decide (a = b)) as [<-|]; [by rewrite Hn|done]. }
  eexists. split.
  { unfold Put. destruct (Nat.eqb_spec (Level sl) 0) as [|_]; [contradiction|].
    rewrite Hget. cbn [mbind result_bind].
    rewrite (deref_Some _ _ _ Hn). reflexivity. }
  simpl. split; [done|]. split; [done|]. split; [done|].
  split; [by rewrite length_insert|].
  split.
  { intros b. rewrite (lookup_set_val _ _ _ _ _ Hn).
    destruct (decide (a = b)) as [<-|]; [by rewrite Hn|done]. }
  split; [done|]. split; [by apply Rep_set_val|].
  unfold contents. simpl. split.
  - rewrite <-!list_fmap_compose. apply list_fmap_ext. intros i b _. simpl.
    rewrite !kkey_kvOf. by apply keyOf_same_keys.
  - pose proof (rep_base_sorted _ _ HR) as Hs.
    apply list_elem_of_split in Ha as (pre & post & Hbase).
    rewrite Hbase in Hs |- *.
    rewrite fmap_app, fmap_cons in Hs.
    apply StronglySorted_app in Hs as (Hcross & _ & Hs2).
    apply StronglySorted_inv in Hs2 as [_ Hall].
    rewrite Forall_fmap, Forall_forall in Hall.
    rewrite (keyOf_Some _ _ _ Hn) in Hall.
    rewrite fmap_app, fmap_cons, filter_app.
    rewrite filter_other_keys.
    2: { apply Forall_forall. intros b Hb.
         rewrite (keyOf_same_keys (store sl)) by done.
         specialize (Hcross (keyOf (store sl) b) (keyOf (store sl) a)).
         rewrite (keyOf_Some _ _ _ Hn) in Hcross.
         assert (keyOf (store sl) b < key n); [|lia].
         apply Hcross; [by apply list_elem_of_fmap_2|left]. }
    rewrite filter_cons_True.
    2: { rewrite kkey_kvOf, (keyOf_same_keys (store sl)) by done.
         by apply keyOf_Some. }
    rewrite filter_other_keys.
    2: { apply Forall_forall. intros b Hb.
         rewrite (keyOf_same_keys (store sl)) by done.
         specialize (Hall _ Hb). simpl in Hall. lia. }
    simpl. f_equal. unfold kvOf.
    rewrite (lookup_set_val _ _ _ _ _ Hn). by rewrite decide_True.
Qed.

(** C9: a container built by [NewSkipList] with a positive bound has no
    level; on it [Get], [Ceil] and [Floor] report not-found for every
    key, [Range] returns the empty sequence for all bounds, and [Del]
    returns the container as it was. *)
Theorem fresh_container_is_empty (m : Z) :
  0 < m →
  ∃ sl : @SkipList T, NewSkipList m = Some sl ∧ Level sl = 0%nat ∧
    ∀ k s e,
      Get sl k = Ok (zero_value, false) ∧
      Ceil sl k = Ok (None, false) ∧
      Floor sl k = Ok (None, false) ∧
      Range sl s e = Ok [] ∧
      Del sl k = Ok sl.
Proof.
  intros Hm. unfold NewSkipList.
  destruct (Z.leb_spec m 0) as [|_]; [lia|].
  eexists. split; [reflexivity|]. split; [reflexivity|].
  intros k s e. by repeat split.
Qed.

(** ** What the code does where a claim fails *)

(** C1: the first [Put] into a container built by [NewSkipList] returns
    at the guard [sl.Level() == 0]: the container is unchanged and [Get]
    of the key reports not-found. *)
Theorem first_Put_is_dropped (m k : Z) (v : T) (coins : nat → Z) :
  0 < m →
  ∃ sl : @SkipList T, NewSkipList m = Some sl ∧
    Put sl k v coins = Ok sl ∧
    Get sl k = Ok (zero_value, false).
Proof.
  intros Hm. unfold NewSkipList.
  destruct (Z.leb_spec m 0) as [|_]; [lia|].
  eexists. split; [reflexivity|]. by split.
Qed.

(** C2: on every container that satisfies the invariant and stores the
    key [k] in the node at [a], [Del k] returns at the guard [n != nil]:
    the container is unchanged and [Get k] still finds the value. *)
Theorem Del_present_key_is_kept sl Ls a n :
  Rep sl Ls → a ∈ base Ls → store sl !! a = Some n →
  Del sl (key n) = Ok sl ∧ Get sl (key n) = Ok (val n, true).
Proof.
  intros HR Ha Hn.
  pose proof (rep_nonempty_level _ _ _ HR Ha) as Hlv.
  pose proof (get_present _ _ _ HR Ha) as Hget.
  rewrite (keyOf_Some _ _ _ Hn) in Hget.
  unfold Del, Get. destruct (Nat.eqb_spec (Level sl) 0) as [|_]; [done|].
  rewrite Hget. cbn [mbind result_bind].
  by rewrite (deref_Some _ _ _ Hn).
Qed.

End Correctness.

(** ** The example containers satisfy the invariant *)

Lemma sl_one_Rep : Rep sl_one Ls_one.
Proof. solve_rep. Qed.

Lemma sl_three_Rep : Rep sl_three Ls_three.
Proof. solve_rep. Qed.

Lemma sl_three_contents :
  contents sl_three Ls_three =
    [mkKvPair 10 100; mkKvPair 20 200; mkKvPair 30 300].
Proof. reflexivity. Qed.

(** ** The claims at the example containers *)

Lemma Ceil_smallest_key_at_least_witness :
  Rep sl_three Ls_three ∧
  ∃ r, Ceil sl_three 15 = Ok r ∧ is_ceiling (contents sl_three Ls_three) 15 r.
Proof.
  split; [exact sl_three_Rep|].
  exact (Ceil_smallest_key_at_least sl_three Ls_three 15 sl_three_Rep).
Defined.

Lemma Range_exact_witness :
  Rep sl_three Ls_three ∧
  ∃ res, Range sl_three 10 25 = Ok res ∧
    res = filter (λ kv, 10 ≤ kkey kv ∧ kkey kv ≤ 25)
            (contents sl_three Ls_three) ∧
    (∀ kv, kv ∈ res ↔
       kv ∈ contents sl_three Ls_three ∧ 10 ≤ kkey kv ∧ kkey kv ≤ 25) ∧
    StronglySorted Z.lt (kkey <$> res) ∧
    NoDup res ∧
    ((∀ kv, kv ∈ contents sl_three Ls_three →
        ¬ (10 ≤ kkey kv ∧ kkey kv ≤ 25)) → res = []).
Proof.
  split; [exact sl_three_Rep|].
  exact (Range_exact sl_three Ls_three 10 25 sl_three_Rep).
Defined.

Lemma Range_inverted_bounds_empty_witness :
  10 < 30 ∧ Rep sl_three Ls_three ∧ Range sl_three 30 10 = Ok [].
Proof.
  split; [lia|]. split; [exact sl_three_Rep|].
  destruct (Range_inverted_bounds_empty sl_three 30 10) as [Hrep _]; [lia|].
  exact (Hrep Ls_three sl_three_Rep).
Defined.

Lemma Put_existing_key_in_place_witness :
  ∃ sl', Put sl_three 20 7 coins_one = Ok sl' ∧
    store sl' = <[2%nat := mkNode 20 7 [Some 3%nat; None]]> (store sl_three) ∧
    Rep sl' Ls_three ∧
    filter (λ kv, kkey kv = 20) (contents sl' Ls_three) = [mkKvPair 20 7].
Proof.
  destruct (Put_existing_key_in_place sl_three Ls_three 2%nat
              (mkNode 20 200 [Some 3%nat; None]) 7 coins_one)
    as (sl' & HPut & Hst & _ & _ & _ & _ & _ & HR & _ & Hone).
  - exact sl_three_Rep.
  - right. left.
  - reflexivity.
  - exists sl'. split; [exact HPut|]. split; [exact Hst|].
    split; [exact HR|exact Hone].
Defined.

Lemma fresh_container_is_empty_witness :
  ∃ sl : @SkipList Z, NewSkipList 4 = Some sl ∧ Level sl = 0%nat ∧
    ∀ k s e,
      Get sl k = Ok (zero_value, false) ∧
      Ceil sl k = Ok (None, false) ∧
      Floor sl k = Ok (None, false) ∧
      Range sl s e = Ok [] ∧
      Del sl k = Ok sl.
Proof. apply (fresh_container_is_empty 4). lia. Defined.

Lemma first_Put_is_dropped_witness :
  ∃ sl : @SkipList Z, NewSkipList 4 = Some sl ∧
    Put sl 1 7 coins_one = Ok sl ∧
    Get sl 1 = Ok (zero_value, false).
Proof. apply (first_Put_is_dropped 4 1 7 coins_one). lia. Defined.

Lemma Del_present_key_is_kept_witness :
  Del sl_three 20 = Ok sl_three ∧ Get sl_three 20 = Ok (200, true).
Proof.
  apply (Del_present_key_is_kept sl_three Ls_three 2%nat
           (mkNode 20 200 [Some 3%nat; None])).
  - exact sl_three_Rep.
  - right. left.
  - reflexivity.
Defined.

(** C3: on the container with the keys 10, 20 and 30, which satisfies the
    invariant, [Floor 10] reports not-found although 10 is stored, and
    [Floor 9] reports found with the head sentinel's zero key and zero
    value although no stored key is at or below 9. *)
Theorem Floor_wrong_at_smallest_key :
  Rep sl_three Ls_three ∧
  Floor sl_three 10 = Ok (None, false) ∧
  ¬ is_floor (contents sl_three Ls_three) 10 (None, false) ∧
  Floor sl_three 9 = Ok (Some (newKvPair 0 0), true) ∧
  ¬ is_floor (contents sl_three Ls_three) 9 (Some (newKvPair 0 0), true).
Proof.
  split; [exact sl_three_Rep|]. rewrite sl_three_contents.
  split; [reflexivity|]. split; [|split; [reflexivity|]].
  - intros Hf. specialize (Hf (mkKvPair 10 100)). simpl in Hf.
    assert (10 < 10); [apply Hf; left|lia].
  - intros [Hin _].
    repeat (apply elem_of_cons in Hin as [Hin|Hin]; [discriminate|]).
    by apply elem_of_nil in Hin.
Qed.

(** C4: on the container with the single key 10, which satisfies the
    invariant, [Put 5] with a drawn height of 0 returns a container whose
    base level runs 10, 5: no level lists make the invariant hold on
    it. *)
Theorem Put_breaks_key_order :
  Rep sl_one Ls_one ∧
  ∃ sl', Put sl_one 5 50 coins_one = Ok sl' ∧
    chain (store sl') 0 (Some (head sl')) [0%nat; 1%nat; 2%nat] ∧
    keyOf (store sl') <$> [1%nat; 2%nat] = [10; 5] ∧
    ¬ ∃ Ls, Rep sl' Ls.
Proof.
  split; [exact sl_one_Rep|]. eexists. split; [vm_compute; reflexivity|].
  assert (chain
    [mkNode 0 0 [Some 1%nat]; mkNode 10 100 [Some 2%nat]; mkNode 5 50 [None]]
    0 (Some 0%nat) [0%nat; 1%nat; 2%nat]) as Hc
    by (repeat (econstructor; try reflexivity)).
  split; [exact Hc|]. split; [reflexivity|].
  intros [Ls HR].
  pose proof (rep_level _ _ HR) as Hlv.
  destruct Ls as [|L0 [|? ?]]; try discriminate Hlv.
  pose proof (rep_chain _ _ HR 0%nat L0 eq_refl) as Hc'.
  pose proof (rep_sorted _ _ HR 0%nat L0 eq_refl) as Hs.
  pose proof (chain_det _ _ _ _ _ Hc' Hc) as HL. simplify_eq/=.
  apply StronglySorted_inv in Hs as [_ Hall].
  apply Forall_cons in Hall as [Hlt _]. vm_compute in Hlt. discriminate.
Qed.

(** C5: on the container with the keys 10, 20 and 30 on two levels, which
    satisfies the invariant, [Put 15] with a drawn height of 0 panics:
    the loop starts at the head's top level 1 and indexes the new node's
    forward slice, of length 1, at 1. *)
Theorem Put_short_node_panics :
  Rep sl_three Ls_three ∧
  Level sl_three = 2%nat ∧
  randLevel sl_three coins_one = 0 ∧
  Put sl_three 15 50 coins_one = Panic.
Proof.
  split; [exact sl_three_Rep|]. by repeat split.
Qed.

(** * Further properties of the code *)

Section Coverage.

Context {T : Type} `{GoZero T}.

Implicit Types (st : list (@node T)) (sl : @SkipList T).
Implicit Types (L pre post : list addr) (Ls : list (list addr)).
Implicit Types (a b c : addr).

(** ** Construction *)

(** X1: [NewSkipList] yields no container exactly for a non-positive bound;
    the container it yields for a positive bound carries the bound, has
    no level, and satisfies the invariant with no stored pair. *)
Theorem NewSkipList_validates (m : Z) :
  (NewSkipList (T := T) m = None ↔ m ≤ 0) ∧
  ∀ sl, NewSkipList m = Some sl →
    0 < m ∧ maxLevel sl = m ∧ Level sl = 0%nat ∧
    Rep sl [] ∧ contents sl [] = [].
Proof.
  unfold NewSkipList. destruct (Z.leb_spec m 0) as [Hle|Hgt].
  - split; [by split|]. intros sl [=].
  - split; [split; [intros [=]|lia]|].
    intros sl [= <-]. do 3 (split; [done|]). split; [|done].
    constructor; try done; intros l L HL; by destruct l.
Qed.

(** ** [Get] *)

Lemma get_absent sl Ls k :
  Rep sl Ls → (∀ a, a ∈ base Ls → keyOf (store sl) a ≠ k) →
  get sl k = Ok None.
Proof.
  intros HR Habs. unfold get.
  destruct (Nat.eqb_spec (Level sl) 0) as [Hlv|Hlv]; [done|].
  destruct (descend_head sl Ls k HR Hlv) as (r & -> & Hpost).
  cbn [mbind result_bind]. destruct r as [a|c]; [|done].
  destruct Hpost as [Ha Hk]. by destruct (Habs a Ha).
Qed.

(** X2: on a container that satisfies the invariant, [Get k] returns: with
    [(v, true)] where [(k, v)] is a stored pair, or with the zero value
    and [false] where no stored pair has the key [k]. *)
Theorem Get_stored_or_absent sl Ls k :
  Rep sl Ls →
  ∃ r, Get sl k = Ok r ∧
    ((∃ v, r = (v, true) ∧ newKvPair k v ∈ contents sl Ls) ∨
     (r = (zero_value, false) ∧ ∀ kv, kv ∈ contents sl Ls → kkey kv ≠ k)).
Proof.
  intros HR. unfold Get, get, contents.
  destruct (Nat.eqb_spec (Level sl) 0) as [Hlv|Hlv].
  { eexists. split; [done|]. right. split; [done|].
    rewrite (rep_level_0 _ _ HR Hlv). intros kv Hin.
    by apply elem_of_nil in Hin. }
  destruct (descend_head sl Ls k HR Hlv) as (r & -> & Hpost).
  cbn [mbind result_bind]. destruct r as [a|c]; cbn [mbind result_bind].
  - destruct Hpost as [Ha Hk].
    destruct (rep_base_lookup _ _ _ HR Ha) as [n Hn].
    rewrite (deref_Some _ _ _ Hn). eexists. split; [done|]. left.
    exists (val n). split; [done|].
    rewrite (keyOf_Some _ _ _ Hn) in Hk. rewrite <-Hk.
    rewrite <-(kvOf_Some _ _ _ Hn). by apply list_elem_of_fmap_2.
  - destruct Hpost as (pre & post & -> & _ & Hpre & Hgt).
    eexists. split; [done|]. right. split; [done|].
    intros kv (b & -> & Hb)%list_elem_of_fmap. rewrite kkey_kvOf.
    rewrite Forall_forall in Hpre, Hgt.
    apply elem_of_app in Hb as [Hb|Hb];
      [specialize (Hpre _ Hb)|specialize (Hgt _ Hb)]; simpl in *; lia.
Qed.

(** ** The level generator *)

Lemma randLevel_loop_spec coins maxL : ∀ fuel i r0,
  0 ≤ r0 ≤ maxL → i = Z.to_nat r0 → maxL - r0 < Z.of_nat fuel →
  (∀ j, (j < i)%nat → coins j = 0) →
  let r := randLevel_loop fuel coins i maxL r0 in
  r0 ≤ r ≤ maxL ∧
  (∀ j, (j < Z.to_nat r)%nat → coins j = 0) ∧
  (r = maxL ∨ coins (Z.to_nat r) ≠ 0).
Proof.
  induction fuel as [|fuel IH]; intros i r0 Hr0 Hi Hf Hzero; [lia|].
  cbn [randLevel_loop].
  destruct (Z.eqb_spec (coins i) 0) as [Hc|Hc]; simpl.
  - destruct (Z.ltb_spec r0 maxL) as [Hlt|Hge].
    + destruct (IH (S i) (r0 + 1)) as (Hb & Hz & Hstop);
        [lia|lia|lia| |].
      { intros j Hj. destruct (decide (j = i)) as [->|]; [done|].
        apply Hzero. lia. }
      split; [lia|done].
    + split; [lia|]. split; [by subst i|]. left. lia.
  - split; [lia|]. split; [by subst i|]. right. by subst i.
Qed.

(** X3: [randLevel] returns the number of leading draws that are 0, capped
    at [maxLevel]: it lies between 0 and [maxLevel], every draw before it
    is 0, and it is [maxLevel] or the draw at its position is not 0. *)
Theorem randLevel_counts_leading_zeros sl (coins : nat → Z) :
  0 ≤ maxLevel sl →
  0 ≤ randLevel sl coins ≤ maxLevel sl ∧
  (∀ j, (j < Z.to_nat (randLevel sl coins))%nat → coins j = 0) ∧
  (randLevel sl coins = maxLevel sl ∨
   coins (Z.to_nat (randLevel sl coins)) ≠ 0).
Proof.
  intros Hm. unfold randLevel.
  apply (randLevel_loop_spec coins (maxLevel sl)); [lia|done|lia|].
  intros j Hj. lia.
Qed.

(** ** What the queries return on any store *)

Lemma range_loop_upper st e : ∀ fuel p acc res,
  range_loop fuel st e p acc = Ok res →
  ∃ more, res = acc ++ more ∧ Forall (λ kv, kkey kv ≤ e) more ∧
    ∀ a n, p = Some a → st !! a = Some n → key n ≤ e →
      hd_error more = Some (newKvPair (key n) (val n)).
Proof.
  induction fuel as [|fuel IH]; intros p acc res Hrun; [discriminate|].
  cbn [range_loop] in Hrun. destruct p as [a|].
  2: { injection Hrun as <-. exists []. by rewrite app_nil_r. }
  unfold deref, index in Hrun.
  destruct (st !! a) as [n|] eqn:Hn; [|discriminate].
  cbn [mbind result_bind] in Hrun.
  destruct (Z.leb_spec (key n) e) as [Hle|Hgt].
  - destruct (nextNodes n !! 0%nat) as [nx|]; [|discriminate].
    cbn [mbind result_bind] in Hrun.
    destruct (IH _ _ _ Hrun) as (more & -> & Hall & _).
    exists (newKvPair (key n) (val n) :: more).
    split; [by rewrite <-app_assoc|]. split; [by constructor|].
    intros a' n' [= <-] Hn' _. by simplify_eq.
  - injection Hrun as <-. exists []. rewrite app_nil_r.
    split; [done|]. split; [done|].
    intros a' n' [= <-] Hn' Hle. simplify_eq. lia.
Qed.

(** X4: whatever the links of the store are (also after a [Put] has broken
    the order), a [Ceil target] that reports found carries a key that is
    at least [target], a [Ceil] that carries no pair reports not-found,
    and a [Get k] that reports found carries the value of a node whose
    key is [k]. *)
Theorem Ceil_Get_results_match_target sl (t : Z) :
  (∀ r, Ceil sl t = Ok r →
     match r with
     | (Some kv, found) => found = true ∧ t ≤ kkey kv
     | (None, found) => found = false
     end) ∧
  (∀ v, Get sl t = Ok (v, true) →
     ∃ a n, store sl !! a = Some n ∧ key n = t ∧ val n = v).
Proof.
  split.
  - intros r. unfold Ceil.
    destruct (Nat.eqb_spec (Level sl) 0) as [Hlv|Hlv]; [by intros [= <-]|].
    destruct (ceil sl t) as [p| |] eqn:Hc; try discriminate.
    cbn [mbind result_bind]. apply ceil_exit in Hc.
    destruct p as [a|]; [|by intros [= <-]].
    destruct Hc as (m & Hm & Hk). rewrite (deref_Some _ _ _ Hm).
    by intros [= <-].
  - intros v. unfold Get, get.
    destruct (Nat.eqb_spec (Level sl) 0) as [Hlv|Hlv]; [by intros [=]|].
    destruct (descend _ t _ _) as [r| |] eqn:Hd; try discriminate.
    cbn [mbind result_bind]. apply descend_exit in Hd.
    destruct r as [a|c]; cbn [mbind result_bind]; [|by intros [=]].
    destruct Hd as (m & Hm & Hk). rewrite (deref_Some _ _ _ Hm).
    intros [= <-]. by exists a, m.
Qed.

(** X5: whatever the links of the store are, every pair a [Range s e]
    returns has a key of at most [e], and the first pair it returns has a
    key of at least [s]. *)
Theorem Range_keys_within_bounds sl (s e : Z) res :
  Range sl s e = Ok res →
  Forall (λ kv, kkey kv ≤ e) res ∧
  ∀ kv, hd_error res = Some kv → s ≤ kkey kv.
Proof.
  unfold Range.
  destruct (Nat.eqb_spec (Level sl) 0) as [Hlv|Hlv]; [by intros [= <-]|].
  destruct (ceil sl s) as [p| |] eqn:Hc; try discriminate.
  cbn [mbind result_bind]. apply ceil_exit in Hc.
  destruct p as [a|]; [|by intros [= <-]].
  destruct Hc as (m & Hm & Hk). intros Hrun.
  destruct (range_loop_upper _ _ _ _ _ _ Hrun) as (more & -> & Hall & Hfirst).
  simpl. split; [done|]. intros kv Hkv.
  destruct (decide (key m ≤ e)) as [Hle|Hgt].
  - rewrite (Hfirst a m eq_refl Hm Hle) in Hkv. by injection Hkv as <-.
  - clear Hfirst. cbn [range_loop] in Hrun.
    rewrite (deref_Some _ _ _ Hm) in Hrun. cbn [mbind result_bind] in Hrun.
    destruct (Z.leb_spec (key m) e) as [|_]; [lia|].
    injection Hrun as <-. discriminate.
Qed.

(** ** How [Range] and [Ceil] compose *)

(** X6: on a container that satisfies the invariant, [Range s e] starts at
    the pair [Ceil s] finds: it is empty when [Ceil s] reports not-found
    or finds a key above [e], and otherwise its first pair is the pair of
    [Ceil s]. *)
Theorem Range_starts_at_Ceil sl Ls (s e : Z) :
  Rep sl Ls →
  ∃ rc rr, Ceil sl s = Ok rc ∧ Range sl s e = Ok rr ∧
    match rc with
    | (Some kv, _) =>
        if decide (kkey kv ≤ e) then hd_error rr = Some kv else rr = []
    | (None, _) => rr = []
    end.
Proof.
  intros HR. pose proof (Range_filter sl Ls s e HR) as HRange.
  revert HRange. generalize (filter (λ kv, s ≤ kkey kv ∧ kkey kv ≤ e)
                               (contents sl Ls)).
  intros rr. unfold Ceil, Range.
  destruct (Nat.eqb_spec (Level sl) 0) as [Hlv|Hlv].
  { intros [= <-]. by exists (None, false), []. }
  destruct (ceil_spec sl Ls s HR Hlv) as (pre & post & Hbase & _ & _ & ->).
  cbn [mbind result_bind]. destruct post as [|a post]; cbn [hd_error].
  { intros [= <-]. by exists (None, false), []. }
  destruct (rep_base_lookup sl Ls a HR) as [n Hn].
  { rewrite Hbase. apply elem_of_app. right. left. }
  rewrite (deref_Some _ _ _ Hn). cbn [mbind result_bind].
  intros Hrun. eexists _, rr. split; [done|]. split; [done|]. simpl.
  destruct (decide (key n ≤ e)) as [Hle|Hgt].
  - destruct (range_loop_upper _ _ _ _ _ _ Hrun) as (more & -> & _ & Hfirst).
    simpl. by apply (Hfirst a n).
  - cbn [range_loop] in Hrun.
    rewrite (deref_Some _ _ _ Hn) in Hrun. cbn [mbind result_bind] in Hrun.
    destruct (Z.leb_spec (key n) e) as [|_]; [lia|]. by injection Hrun as <-.
Qed.

(** ** [Put] on a stored key, composed with [Get] and with itself *)

Lemma Get_present sl Ls a n :
  Rep sl Ls → a ∈ base Ls → store sl !! a = Some n →
  Get sl (key n) = Ok (val n, true).
Proof.
  intros HR Ha Hn.
  pose proof (rep_nonempty_level _ _ _ HR Ha) as Hlv.
  pose proof (get_present _ _ _ HR Ha) as Hget.
  rewrite (keyOf_Some _ _ _ Hn) in Hget. unfold Get.
  destruct (Nat.eqb_spec (Level sl) 0) as [|_]; [done|].
  rewrite Hget. cbn [mbind result_bind]. by rewrite (deref_Some _ _ _ Hn).
Qed.

Lemma Put_present sl Ls a n v coins :
  Rep sl Ls → a ∈ base Ls → store sl !! a = Some n →
  Put sl (key n) v coins =
    Ok (set_store sl (<[a := set_val n v]> (store sl))).
Proof.
  intros HR Ha Hn.
  pose proof (rep_nonempty_level _ _ _ HR Ha) as Hlv.
  pose proof (get_present _ _ _ HR Ha) as Hget.
  rewrite (keyOf_Some _ _ _ Hn) in Hget. unfold Put.
  destruct (Nat.eqb_spec (Level sl) 0) as [|_]; [done|].
  rewrite Hget. cbn [mbind result_bind]. by rewrite (deref_Some _ _ _ Hn).
Qed.

Lemma Get_absent sl Ls k :
  Rep sl Ls → (∀ a, a ∈ base Ls → keyOf (store sl) a ≠ k) →
  Get sl k = Ok (zero_value, false).
Proof.
  intros HR Habs. unfold Get.
  destruct (Nat.eqb_spec (Level sl) 0) as [|_]; [done|].
  by rewrite (get_absent _ _ _ HR Habs).
Qed.

Lemma key_stored_or_not st L (k : Z) :
  (∃ b, b ∈ L ∧ keyOf st b = k) ∨ (∀ b, b ∈ L → keyOf st b ≠ k).
Proof.
  destruct (decide (k ∈ keyOf st <$> L)) as [Hin|Hout].
  - left. apply list_elem_of_fmap in Hin as (b & -> & Hb). by exists b.
  - right. intros b Hb <-. apply Hout. by apply list_elem_of_fmap_2.
Qed.

(** X7: on a container that satisfies the invariant, after [Put k v] on a
    stored key [k], [Get k] returns [(v, true)] and [Get] of every other
    key returns what it returned before. *)
Theorem Put_then_Get_stored_key sl Ls a n v coins :
  Rep sl Ls → a ∈ base Ls → store sl !! a = Some n →
  ∃ sl', Put sl (key n) v coins = Ok sl' ∧
    Get sl' (key n) = Ok (v, true) ∧
    ∀ k', k' ≠ key n → Get sl' k' = Get sl k'.
Proof.
  intros HR Ha Hn. eexists. split; [by eapply Put_present|].
  pose proof (Rep_set_val _ _ _ _ v HR Hn) as HR'.
  set (sl' := set_store sl _) in *.
  assert (a < length (store sl))%nat as Hlt by (by eapply lookup_lt_Some).
  assert (store sl' !! a = Some (set_val n v)) as Hn'.
  { simpl. by apply list_lookup_insert_eq. }
  assert (∀ b, keyOf (store sl') b = keyOf (store sl) b) as Hkeys.
  { intros b. apply keyOf_same_keys. intros b'. simpl.
    rewrite (lookup_set_val _ _ _ _ _ Hn).
    destruct (decide (a = b')) as [<-|]; [by rewrite Hn|done]. }
  split; [exact (Get_present sl' Ls a _ HR' Ha Hn')|].
  intros k' Hk'.
  destruct (key_stored_or_not (store sl) (base Ls) k')
    as [(b & Hb & Hkb)|Habs].
  - destruct (rep_base_lookup _ _ _ HR Hb) as [m Hm].
    rewrite (keyOf_Some _ _ _ Hm) in Hkb. subst k'.
    assert (store sl' !! b = Some m) as Hm'.
    { simpl. rewrite list_lookup_insert_ne; [done|]. intros <-.
      by simplify_eq. }
    by rewrite (Get_present sl' Ls b m HR' Hb Hm'),
               (Get_present sl Ls b m HR Hb Hm).
  - rewrite (Get_absent sl Ls k' HR Habs). apply (Get_absent sl' Ls k' HR').
    intros b Hb. rewrite Hkeys. by apply Habs.
Qed.

(** X8: on a container that satisfies the invariant, two [Put]s on a stored
    key leave what the second alone leaves: the last value written
    wins and nothing else remembers the first. *)
Theorem Put_twice_stored_key sl Ls a n v1 v2 coins1 coins2 :
  Rep sl Ls → a ∈ base Ls → store sl !! a = Some n →
  ∃ sl1, Put sl (key n) v1 coins1 = Ok sl1 ∧
    Put sl1 (key n) v2 coins2 = Put sl (key n) v2 coins2.
Proof.
  intros HR Ha Hn. eexists. split; [by eapply Put_present|].
  pose proof (Rep_set_val _ _ _ _ v1 HR Hn) as HR'.
  set (sl' := set_store sl _) in *.
  assert (a < length (store sl))%nat as Hlt by (by eapply lookup_lt_Some).
  assert (store sl' !! a = Some (set_val n v1)) as Hn'.
  { simpl. by apply list_lookup_insert_eq. }
  rewrite (Put_present sl Ls a n v2 coins2 HR Ha Hn).
  pose proof (Put_present sl' Ls a (set_val n v1) v2 coins2 HR' Ha Hn')
    as HPut.
  simpl in HPut. rewrite HPut.
  unfold sl', set_store. simpl. by rewrite list_insert_insert_eq.
Qed.

(** ** [Floor] *)

Lemma chain_head_fresh st l c L : chain st l (Some c) (c :: L) → c ∉ L.
Proof.
  intros Hc Hin. apply list_elem_of_split in Hin as (p & q & ->).
  pose proof (chain_suffix st l (Some c) (c :: p) c q Hc) as Hc'.
  pose proof (chain_det _ _ _ _ _ Hc Hc') as Heq.
  apply (f_equal length) in Heq. simpl in Heq.
  rewrite length_app in Heq. simpl in Heq. lia.
Qed.

Lemma rep_first sl Ls :
  Rep sl Ls → Level sl ≠ 0%nat →
  ∃ hd, store sl !! head sl = Some hd ∧
        nextNodes hd !! 0%nat = Some (hd_error (base Ls)) ∧
        head sl ∉ base Ls.
Proof.
  intros HR Hlv. pose proof (rep_base_chain _ _ HR Hlv) as Hc.
  destruct (chain_next _ _ _ [] _ Hc) as (hd & Hhd & Hnx).
  exists hd. repeat split; [done|done|]. by eapply chain_head_fresh.
Qed.

(** [floor] returns the last base-level node whose key is at most the
    target, or the head when there is none. *)
Lemma floor_spec sl Ls target :
  Rep sl Ls → Level sl ≠ 0%nat →
  ∃ pre post, base Ls = pre ++ post ∧
    Forall (λ a, keyOf (store sl) a ≤ target) pre ∧
    Forall (λ a, target < keyOf (store sl) a) post ∧
    floor sl target = Ok (Some (last_or (head sl) pre)).
Proof.
  intros HR Hlv. unfold floor.
  destruct (Nat.eqb_spec (Level sl) 0) as [|_]; [done|].
  destruct (descend_head sl Ls target HR Hlv) as (r & -> & Hpost).
  cbn [mbind result_bind]. destruct r as [a|c]; simpl in Hpost.
  - destruct Hpost as [Hin Hk].
    apply list_elem_of_split in Hin as (p & q & Hbase).
    pose proof (rep_base_sorted _ _ HR) as Hs. rewrite Hbase in Hs.
    rewrite fmap_app, fmap_cons in Hs.
    apply StronglySorted_app in Hs as (Hcross & _ & Hs2).
    apply StronglySorted_inv in Hs2 as [_ Hall].
    exists (p ++ [a]), q. split; [by rewrite <-app_assoc|].
    split; [|split].
    + apply Forall_app. split; [|constructor; [lia|done]].
      apply Forall_forall. intros b Hb. rewrite <-Hk.
      assert (keyOf (store sl) b < keyOf (store sl) a); [|lia].
      apply (Hcross (keyOf (store sl) b) (keyOf (store sl) a));
        [by apply list_elem_of_fmap_2|left].
    + rewrite Forall_fmap in Hall. rewrite <-Hk. exact Hall.
    + unfold last_or. by rewrite last_snoc.
  - destruct Hpost as (pre & post & Hbase & -> & Hpre & Hgt).
    exists pre, post. repeat split; try done.
    eapply Forall_impl; [exact Hpre|]. simpl. intros; lia.
Qed.

Lemma Floor_from_floor sl Ls target pre post hd :
  Rep sl Ls → Level sl ≠ 0%nat →
  base Ls = pre ++ post →
  floor sl target = Ok (Some (last_or (head sl) pre)) →
  store sl !! head sl = Some hd →
  Floor sl target =
    match pre with
    | [] => Ok (Some (newKvPair (key hd) (val hd)), true)
    | [_] => Ok (None, false)
    | _ => Ok (Some (kvOf (store sl) (last_or (head sl) pre)), true)
    end.
Proof.
  intros HR Hlv Hbase Hfloor Hhd.
  destruct (rep_first _ _ HR Hlv) as (hd' & Hhd' & Hfirst & Hfresh).
  assert (hd' = hd) as -> by congruence.
  unfold Floor. destruct (Nat.eqb_spec (Level sl) 0) as [|_]; [done|].
  rewrite Hfloor. cbn [mbind result_bind].
  rewrite (deref_Some _ _ _ Hhd). cbn [mbind result_bind].
  rewrite (index_Some _ _ _ Hfirst). cbn [mbind result_bind].
  rewrite Hbase in *. destruct pre as [|x [|y pre]].
  - unfold last_or. simpl. destruct (decide _) as [Heq|_].
    + destruct post as [|b post]; [done|]. simpl in Heq.
      injection Heq as <-. destruct Hfresh. left.
    + by rewrite (deref_Some _ _ _ Hhd).
  - unfold last_or. simpl. by rewrite decide_True.
  - pose proof (rep_base_sorted _ _ HR) as Hs. rewrite Hbase in Hs.
    apply sorted_NoDup in Hs.
    set (c := last_or (head sl) (x :: y :: pre)).
    assert (c ∈ y :: pre) as Hc.
    { unfold c. rewrite !last_or_cons.
      destruct (last_or_elem y pre) as [[-> _]|Hin]; [left|by right]. }
    assert (c ≠ x) as Hne.
    { intros ->. simpl in Hs. apply NoDup_cons in Hs as [Hx _].
      apply Hx. change (x ∈ (y :: pre) ++ post). apply elem_of_app.
      by left. }
    simpl. destruct (decide _) as [[= Heq]|_]; [done|].
    destruct (rep_base_lookup sl Ls c HR) as [n Hn].
    { rewrite Hbase. apply elem_of_app. left. by right. }
    rewrite (deref_Some _ _ _ Hn). cbn [mbind result_bind].
    by rewrite (kvOf_Some _ _ _ Hn).
Qed.

(** X9: on a container that satisfies the invariant, when the second
    smallest stored key is at most [target], [Floor target] reports
    found with the stored pair whose key is the largest stored key that
    is at most [target]. *)
Theorem Floor_right_above_smallest_key sl Ls (target : Z) a0 a1 rest :
  Rep sl Ls → base Ls = a0 :: a1 :: rest →
  keyOf (store sl) a1 ≤ target →
  ∃ kv, Floor sl target = Ok (Some kv, true) ∧
        is_floor (contents sl Ls) target (Some kv, true).
Proof.
  intros HR Hbase0 Hk1.
  assert (Level sl ≠ 0%nat) as Hlv.
  { apply (rep_nonempty_level sl Ls a0 HR). rewrite Hbase0. left. }
  destruct (floor_spec sl Ls target HR Hlv)
    as (pre & post & Hbase & Hpre & Hgt & Hfloor).
  destruct (rep_first _ _ HR Hlv) as (hd & Hhd & _ & _).
  rewrite (Floor_from_floor sl Ls target pre post hd HR Hlv Hbase Hfloor Hhd).
  rewrite Forall_forall in Hpre, Hgt.
  rewrite Hbase0 in Hbase.
  destruct pre as [|x [|y pre]]; simpl in Hbase.
  { subst post. specialize (Hgt a1). simpl in Hgt.
    assert (target < keyOf (store sl) a1); [|lia].
    apply Hgt. right. left. }
  { injection Hbase as <- <-. specialize (Hgt a1). simpl in Hgt.
    assert (target < keyOf (store sl) a1); [|lia]. apply Hgt. left. }
  eexists. split; [done|]. simpl.
  set (c := last_or (head sl) (x :: y :: pre)).
  assert (c ∈ x :: y :: pre) as Hc.
  { destruct (last_or_elem (head sl) (x :: y :: pre)) as [[_ ?]|Hin]; done. }
  pose proof (rep_base_sorted _ _ HR) as Hs.
  rewrite Hbase0, Hbase in Hs. unfold contents. rewrite Hbase0, Hbase.
  change (x :: y :: pre ++ post) with ((x :: y :: pre) ++ post) in *.
  split; [|split].
  - apply list_elem_of_fmap_2, elem_of_app. by left.
  - rewrite kkey_kvOf. by apply Hpre.
  - intros kv' (b & -> & Hb)%list_elem_of_fmap. rewrite !kkey_kvOf.
    intros Hle. apply elem_of_app in Hb as [Hb|Hb].
    2: { specialize (Hgt _ Hb). simpl in Hgt. lia. }
    rewrite fmap_app in Hs. apply StronglySorted_app_1_l in Hs.
    unfold c, last_or in *.
    destruct (last (x :: y :: pre)) as [z|] eqn:Hlast;
      [|by apply last_None in Hlast].
    apply last_Some in Hlast as [front Hfront]. simpl.
    rewrite Hfront in Hs, Hb. rewrite fmap_app in Hs.
    apply StronglySorted_app in Hs as (Hcross & _ & _).
    apply elem_of_app in Hb as [Hb|Hb].
    + assert (keyOf (store sl) b < keyOf (store sl) z); [|lia].
      apply Hcross; [by apply list_elem_of_fmap_2|left].
    + apply list_elem_of_singleton in Hb as ->. lia.
Qed.

(** X10: on a container that satisfies the invariant and has a level: where
    the smallest stored key is at most [target] and every other stored
    key is above it, [Floor target] reports not-found; where every stored
    key is above [target], [Floor target] reports found with the key and
    the value of the head sentinel. *)
Theorem Floor_at_and_below_smallest_key sl Ls (target : Z) :
  Rep sl Ls →
  (∀ a0 rest, base Ls = a0 :: rest →
     keyOf (store sl) a0 ≤ target →
     (∀ b, b ∈ rest → target < keyOf (store sl) b) →
     Floor sl target = Ok (None, false)) ∧
  (∀ hd, Level sl ≠ 0%nat → store sl !! head sl = Some hd →
     (∀ b, b ∈ base Ls → target < keyOf (store sl) b) →
     Floor sl target = Ok (Some (newKvPair (key hd) (val hd)), true)).
Proof.
  intros HR. split.
  - intros a0 rest Hbase0 Hk0 Hrest.
    assert (Level sl ≠ 0%nat) as Hlv.
    { apply (rep_nonempty_level sl Ls a0 HR). rewrite Hbase0. left. }
    destruct (floor_spec sl Ls target HR Hlv)
      as (pre & post & Hbase & Hpre & Hgt & Hfloor).
    destruct (rep_first _ _ HR Hlv) as (hd & Hhd & _ & _).
    rewrite (Floor_from_floor sl Ls target pre post hd HR Hlv Hbase Hfloor Hhd).
    rewrite Forall_forall in Hpre, Hgt. rewrite Hbase0 in Hbase.
    destruct pre as [|x [|y pre]]; simpl in Hbase; [|done|].
    + subst post. specialize (Hgt a0). simpl in Hgt.
      assert (target < keyOf (store sl) a0); [|lia]. apply Hgt. left.
    + injection Hbase as <- ->.
      assert (target < keyOf (store sl) y) by (apply Hrest; left).
      assert (keyOf (store sl) y ≤ target); [|lia].
      apply Hpre. right. left.
  - intros hd Hlv Hhd Hall.
    destruct (floor_spec sl Ls target HR Hlv)
      as (pre & post & Hbase & Hpre & Hgt & Hfloor).
    rewrite (Floor_from_floor sl Ls target pre post hd HR Hlv Hbase Hfloor Hhd).
    destruct pre as [|x pre]; [done|].
    rewrite Forall_forall in Hpre.
    assert (target < keyOf (store sl) x).
    { apply Hall. rewrite Hbase. left. }
    assert (keyOf (store sl) x ≤ target); [|lia]. apply Hpre. left.
Qed.

(** ** [Del] of a key that is not stored *)

Lemma cut_dif_stop (nx : list (option addr)) : ∀ lv dif d,
  (lv ≤ length nx)%nat → cut_dif nx lv dif = Ok d →
  (dif ≤ d)%nat ∧
  ((d - dif < lv)%nat →
   ∃ a, nx !! (lv - (d - dif) - 1)%nat = Some (Some a)).
Proof.
  induction lv as [|lv IH]; intros dif d Hlv Hrun; simpl in Hrun.
  { injection Hrun as <-. split; [done|lia]. }
  destruct (lookup_lt_is_Some_2 nx lv) as [p Hp]; [lia|].
  rewrite (index_Some _ _ _ Hp) in Hrun. cbn [mbind result_bind] in Hrun.
  destruct p as [a|].
  - injection Hrun as <-. split; [done|]. intros _. exists a.
    by replace (S lv - (dif - dif) - 1)%nat with lv by lia.
  - destruct (IH (S dif) d) as [Hge Hstop]; [lia|done|].
    split; [lia|]. intros Hlt. destruct Hstop as [a Ha]; [lia|].
    exists a. by replace (S lv - (d - dif) - 1)%nat
                with (lv - (d - S dif) - 1)%nat by lia.
Qed.

(** X11: on a container that satisfies the invariant, [Del] of a key that
    is not stored returns a container that keeps the first [keep] levels
    and drops the rest: it satisfies the invariant, stores the same
    pairs, every dropped level was empty, and the top level that is kept
    is not empty. *)
Theorem Del_absent_key_trims sl Ls (k : Z) :
  Rep sl Ls →
  (∀ kv, kv ∈ contents sl Ls → kkey kv ≠ k) →
  ∃ sl' keep, Del sl k = Ok sl' ∧
    (keep ≤ length Ls)%nat ∧ Level sl' = keep ∧
    Rep sl' (take keep Ls) ∧
    contents sl' (take keep Ls) = contents sl Ls ∧
    (∀ l L, (keep ≤ l)%nat → Ls !! l = Some L → L = []) ∧
    (∀ L, last (take keep Ls) = Some L → L ≠ []).
Proof.
  intros HR Habs. unfold Del, get.
  pose proof (rep_level _ _ HR) as Hlevel.
  destruct (Nat.eqb_spec (Level sl) 0) as [Hlv|Hlv].
  { exists sl, 0%nat. rewrite Hlv in Hlevel. destruct Ls; [|done].
    by repeat split. }
  destruct (descend_head sl Ls k HR Hlv) as (r & Hd & Hpost). rewrite Hd.
  cbn [mbind result_bind]. destruct r as [a|c].
  { destruct Hpost as [Ha Hk]. destruct (Habs (kvOf (store sl) a)).
    - by apply list_elem_of_fmap_2.
    - by rewrite kkey_kvOf. }
  cbn [mbind result_bind]. rewrite (del_loop_no_match _ _ _ _ _ Hd).
  cbn [mbind result_bind].
  destruct (rep_head_lookup _ _ HR Hlv) as (hd & Hhd & Hlen).
  rewrite (deref_Some _ _ _ Hhd). cbn [mbind result_bind].
  destruct (cut_dif_spec (nextNodes hd) (length (nextNodes hd)) 0)
    as (d & Hcut & Hbound & Hnil); [done|].
  destruct (cut_dif_stop _ _ _ _ (Nat.le_refl _) Hcut) as [_ Hstop].
  rewrite Hcut. cbn [mbind result_bind].
  remember (length (nextNodes hd) - d)%nat as keep eqn:Hk.
  pose proof (Rep_trim sl Ls hd keep HR Hhd) as HR'.
  assert (∀ l L, (keep ≤ l)%nat → Ls !! l = Some L → L = []) as Hdropped.
  { intros l L Hl HL. pose proof (lookup_lt_Some _ _ _ HL) as Hll.
    pose proof (rep_chain _ _ HR _ _ HL) as Hc.
    inversion Hc as [|? n q ? Hn Hq Hrest]; subst.
    assert (n = hd) as -> by congruence.
    rewrite Hnil in Hq by lia. injection Hq as <-. by inversion Hrest. }
  eexists _, keep. split; [done|]. split; [lia|].
  split; [rewrite (rep_level _ _ HR'), length_take; lia|].
  split; [done|]. split; [|split; [done|]].
  - unfold contents. simpl.
    assert (base (take keep Ls) = base Ls) as ->.
    { unfold base. destruct keep as [|keep'].
      - rewrite take_0. simpl.
        destruct (Ls !! 0%nat) as [L0|] eqn:HL0; [simpl|done].
        symmetry. apply (Hdropped 0%nat); [lia|done].
      - by rewrite lookup_take_lt by lia. }
    apply list_fmap_ext. intros i b _. unfold kvOf.
    destruct (decide (head sl = b)) as [<-|Hne].
    + rewrite list_lookup_insert_eq by (by eapply lookup_lt_Some).
      by rewrite Hhd.
    + by rewrite list_lookup_insert_ne.
  - intros L Hlast. rewrite last_lookup, length_take in Hlast.
    apply lookup_take_Some in Hlast as [HL Hlt].
    assert (0 < keep)%nat as Hpos by lia.
    replace (Init.Nat.pred (keep `min` length Ls)) with (keep - 1)%nat
      in HL by lia.
    destruct Hstop as [a Ha]; [lia|].
    replace (length (nextNodes hd) - (d - 0) - 1)%nat with (keep - 1)%nat
      in Ha by lia.
    pose proof (rep_chain _ _ HR _ _ HL) as Hc.
    inversion Hc as [|? n q ? Hn Hq Hrest]; subst L0.
    assert (n = hd) as -> by congruence.
    rewrite Ha in Hq. injection Hq as <-. inversion Hrest; by subst.
Qed.

(** ** [Put] and the number of levels *)

Lemma randLevel_loop_ge coins maxL : ∀ fuel i r0,
  r0 ≤ randLevel_loop fuel coins i maxL r0.
Proof.
  induction fuel as [|fuel IH]; intros i r0; simpl; [lia|].
  destruct ((coins i =? 0) && (r0 <? maxL)); [|lia].
  specialize (IH (S i) (r0 + 1)). lia.
Qed.

Lemma randLevel_nonneg sl coins : 0 ≤ randLevel sl coins.
Proof. apply randLevel_loop_ge. Qed.

Lemma Level_lookup sl hd :
  store sl !! head sl = Some hd → Level sl = length (nextNodes hd).
Proof. unfold Level. by intros ->. Qed.

Lemma grow_shape randL : ∀ fuel sl,
  head (grow fuel sl randL) = head sl ∧
  maxLevel (grow fuel sl randL) = maxLevel sl ∧
  length (store (grow fuel sl randL)) = length (store sl) ∧
  (Level sl ≤ Level (grow fuel sl randL))%nat ∧
  Z.of_nat (Level (grow fuel sl randL)) ≤
    Z.max (Z.of_nat (Level sl)) (randL + 1).
Proof.
  induction fuel as [|fuel IH]; intros sl; simpl;
    [repeat split; lia|].
  destruct (Z.ltb_spec (Z.of_nat (Level sl) - 1) randL) as [Hlt|];
    [|repeat split; lia].
  destruct (store sl !! head sl) as [hd|] eqn:Hhd; [|repeat split; lia].
  set (sl2 := set_store sl _).
  destruct (IH sl2) as (Hh & Hm & Hl & Hle & Hmax).
  assert (Level sl2 = S (Level sl)) as Hlv2.
  { rewrite (Level_lookup sl hd Hhd).
    rewrite (Level_lookup sl2 (set_nextNodes hd (nextNodes hd ++ [None]))).
    - simpl. rewrite length_app. simpl. lia.
    - simpl. apply list_lookup_insert_eq. by eapply lookup_lt_Some. }
  rewrite Hh, Hm, Hl. simpl. rewrite length_insert.
  repeat split; try done; lia.
Qed.

Lemma insert_links_shape st a n nx b :
  st !! a = Some n → length nx = length (nextNodes n) →
  node_shape <$> <[a := set_nextNodes n nx]> st !! b = node_shape <$> st !! b.
Proof.
  intros Hn Hlen. destruct (decide (a = b)) as [<-|Hne].
  - rewrite list_lookup_insert_eq by (by eapply lookup_lt_Some).
    rewrite Hn. simpl. unfold node_shape. simpl. by rewrite Hlen.
  - by rewrite list_lookup_insert_ne.
Qed.

Lemma bind_Ok {A B} (m : result A) (f : A → result B) (y : B) :
  m ≫= f = Ok y → ∃ x, m = Ok x ∧ f x = Ok y.
Proof. destruct m as [x| |]; try discriminate. intros Hf. by exists x. Qed.

Lemma deref_Ok st a n : deref st a = Ok n → st !! a = Some n.
Proof. unfold deref. destruct (st !! a); [by intros [= ->]|discriminate]. Qed.

Lemma index_Ok {A} (xs : list A) l x : index xs l = Ok x → xs !! l = Some x.
Proof. unfold index. destruct (xs !! l); [by intros [= ->]|discriminate]. Qed.

(** The loop of [Put] allocates nothing and leaves every node its key,
    its value and the number of its slots. *)
Lemma put_loop_shape k n : ∀ lv st cur st',
  put_loop st k n lv cur = Ok st' →
  length st' = length st ∧
  ∀ b, node_shape <$> st' !! b = node_shape <$> st !! b.
Proof.
  induction lv as [|lv IH]; intros st cur st' Hrun.
  { simpl in Hrun. by injection Hrun as <-. }
  cbn [put_loop] in Hrun.
  apply bind_Ok in Hrun as (cur' & _ & Hrun).
  apply bind_Ok in Hrun as (c & Hc%deref_Ok & Hrun).
  apply bind_Ok in Hrun as (nx & _ & Hrun).
  apply bind_Ok in Hrun as (nn & Hnn%deref_Ok & Hrun).
  apply bind_Ok in Hrun as (? & _ & Hrun).
  apply bind_Ok in Hrun as (c1 & Hc1%deref_Ok & Hrun).
  apply bind_Ok in Hrun as (? & _ & Hrun).
  destruct (IH _ _ _ Hrun) as [Hlen Hshape].
  split.
  - rewrite Hlen. by rewrite !length_insert.
  - intros b. rewrite Hshape.
    rewrite (insert_links_shape _ cur' c1) by (by rewrite ?length_insert).
    by rewrite (insert_links_shape st n nn) by (by rewrite ?length_insert).
Qed.

Lemma Level_shape sl sl' :
  head sl' = head sl →
  node_shape <$> store sl' !! head sl = node_shape <$> store sl !! head sl →
  Level sl' = Level sl.
Proof.
  intros Hh. unfold Level. rewrite Hh.
  destruct (store sl' !! head sl), (store sl !! head sl); simpl; try done.
  by intros [= _ _ ->].
Qed.

(** X12: whatever the store is, a [Put] that returns leaves the head and the
    bound where they were, never lowers the number of levels, and raises
    it to at most [maxLevel + 1]. *)
Theorem Put_level_bounded sl (k : Z) (v : T) (coins : nat → Z) sl' :
  0 ≤ maxLevel sl → Put sl k v coins = Ok sl' →
  head sl' = head sl ∧ maxLevel sl' = maxLevel sl ∧
  (Level sl ≤ Level sl')%nat ∧
  Z.of_nat (Level sl') ≤ Z.max (Z.of_nat (Level sl)) (maxLevel sl + 1).
Proof.
  intros Hm. unfold Put.
  destruct (Nat.eqb_spec (Level sl) 0) as [Hlv|Hlv].
  { intros [= <-]. repeat split; lia. }
  destruct (get sl k) as [p| |]; try discriminate.
  cbn [mbind result_bind]. destruct p as [a|].
  - unfold deref. destruct (store sl !! a) as [n|] eqn:Hn; [|discriminate].
    cbn [mbind result_bind]. intros [= <-]. simpl.
    assert (Level (set_store sl (<[a:=set_val n v]> (store sl))) = Level sl)
      as ->; [|repeat split; lia].
    unfold Level. simpl. rewrite (lookup_set_val _ _ _ _ _ Hn).
    destruct (decide (a = head sl)) as [->|]; [by rewrite Hn|done].
  - set (randL := randLevel sl coins).
    pose proof (grow_shape randL (S (Z.to_nat randL)) sl)
      as (Hh & Hmx & Hl & Hle & Hmax).
    remember (grow (S (Z.to_nat randL)) sl randL) as sl1 eqn:Hsl1.
    clear Hsl1.
    destruct (put_loop _ k _ _ _) as [st'| |] eqn:Hloop; try discriminate.
    cbn [mbind result_bind]. intros [= <-]. simpl.
    destruct (put_loop_shape _ _ _ _ _ _ Hloop) as [_ Hshape].
    assert (Level (set_store sl1 st') = Level sl1) as ->.
    { assert (is_Some (store sl !! head sl)) as Hhd.
      { unfold Level in Hlv. by destruct (store sl !! head sl). }
      apply lookup_lt_is_Some in Hhd.
      apply Level_shape; [done|]. simpl. rewrite Hshape.
      by rewrite lookup_app_l by (rewrite Hh, Hl; lia). }
    pose proof (randLevel_bounds sl coins Hm) as Hr. fold randL in Hr.
    repeat split; try done; lia.
Qed.

(** ** [Put] of a new key with a drawn height below the top level *)

Lemma chain_app_store st ext l p L :
  chain st l p L → chain (st ++ ext) l p L.
Proof.
  induction 1 as [|a n q L Hn Hq _ IH]; [constructor|].
  econstructor; [by apply lookup_app_l_Some|done|done].
Qed.

Lemma chain_slot st l p L a :
  chain st l p L → a ∈ L →
  ∃ n q, st !! a = Some n ∧ nextNodes n !! l = Some q.
Proof.
  induction 1 as [|b n q L Hb Hq _ IH]; intros Ha.
  - by apply elem_of_nil in Ha.
  - apply elem_of_cons in Ha as [->|Ha]; [by exists n, q|auto].
Qed.

Lemma put_right_chain st l k post : ∀ c fuel,
  chain st l (Some c) (c :: post) → (length post < fuel)%nat →
  ∃ c', put_right fuel st l k c = Ok c' ∧ c' ∈ c :: post.
Proof.
  induction post as [|a post IH]; intros c fuel Hc Hf;
    (destruct fuel as [|fuel]; [simpl in Hf; lia|]);
    inversion Hc as [|? n q ? Hn Hq Hrest]; subst; simpl;
    rewrite (deref_Some _ _ _ Hn); simpl;
    rewrite (index_Some _ _ _ Hq); simpl.
  - inversion Hrest; subst. exists c. split; [done|left].
  - assert (q = Some a) as -> by (inversion Hrest; by subst).
    destruct (key n <? k); [|exists c; split; [done|left]].
    destruct (IH a fuel Hrest) as (c' & -> & Hin); [simpl in Hf; lia|].
    exists c'. split; [done|by right].
Qed.

(** X13: on a container that satisfies the invariant, [Put] of a key that is
    not stored panics whenever the drawn height is below the head's top
    level: the loop starts at the top level and indexes the new node's
    shorter slice there. *)
Theorem Put_below_top_level_panics sl Ls (k : Z) (v : T) (coins : nat → Z) :
  Rep sl Ls →
  (∀ kv, kv ∈ contents sl Ls → kkey kv ≠ k) →
  randLevel sl coins < Z.of_nat (Level sl) - 1 →
  Put sl k v coins = Panic.
Proof.
  intros HR Habs Hshort.
  pose proof (randLevel_nonneg sl coins) as Hr0.
  set (randL := randLevel sl coins) in *.
  unfold Put. destruct (Nat.eqb_spec (Level sl) 0) as [Hlv|Hlv]; [lia|].
  rewrite (get_absent sl Ls k HR).
  2: { intros a Ha Hk. apply (Habs (kvOf (store sl) a)).
       - by apply list_elem_of_fmap_2.
       - by rewrite kkey_kvOf. }
  cbn [mbind result_bind]. fold randL. cbn [grow].
  destruct (Z.ltb_spec (Z.of_nat (Level sl) - 1) randL) as [|_]; [lia|].
  destruct (Level sl) as [|l] eqn:Hl; [done|].
  destruct (lookup_lt_is_Some_2 Ls l) as [L HL].
  { rewrite <-(rep_level _ _ HR), Hl. lia. }
  pose proof (rep_chain _ _ HR _ _ HL) as Hc.
  pose proof (rep_sorted _ _ HR _ _ HL) as Hs.
  set (new := newNode k v _).
  assert (length L ≤ length (store sl))%nat as Hlen.
  { inversion Hc; subst. by eapply chain_length. }
  apply (chain_app_store _ [new]) in Hc.
  cbn [put_loop].
  destruct (put_right_chain _ _ k _ _ (S (length (store sl ++ [new]))) Hc)
    as (c' & -> & Hin); [rewrite length_app; simpl; lia|].
  cbn [mbind result_bind].
  destruct (chain_slot _ _ _ _ _ Hc Hin) as (nc & q & Hnc & Hq).
  rewrite (deref_Some _ _ _ Hnc). cbn [mbind result_bind].
  rewrite (index_Some _ _ _ Hq). cbn [mbind result_bind].
  rewrite (deref_Some _ (length (store sl)) new)
    by (by rewrite list_lookup_middle).
  cbn [mbind result_bind]. unfold index.
  rewrite (lookup_ge_None_2 (nextNodes new)); [done|].
  unfold new. simpl. rewrite length_replicate. lia.
Qed.

(** ** [Put] of a key above every stored key *)

Lemma set_store_id sl : set_store sl (store sl) = sl.
Proof. by destruct sl. Qed.

Lemma set_nextNodes_id (n : @node T) : set_nextNodes n (nextNodes n) = n.
Proof. by destruct n. Qed.

(** The loop that grows the head appends exactly the missing slots. *)
Lemma grow_store randL : ∀ fuel sl hd,
  store sl !! head sl = Some hd →
  randL + 1 - Z.of_nat (Level sl) ≤ Z.of_nat fuel →
  grow fuel sl randL =
    set_store sl
      (<[head sl :=
           set_nextNodes hd
             (nextNodes hd ++
              replicate (Z.to_nat (randL + 1 - Z.of_nat (Level sl))) None)]>
         (store sl)).
Proof.
  assert (∀ sl hd, store sl !! head sl = Some hd →
            randL + 1 - Z.of_nat (Level sl) ≤ 0 →
            sl = set_store sl
              (<[head sl :=
                   set_nextNodes hd
                     (nextNodes hd ++
                      replicate (Z.to_nat (randL + 1 - Z.of_nat (Level sl)))
                        None)]> (store sl))) as Hstay.
  { intros sl hd Hhd Hle.
    replace (Z.to_nat (randL + 1 - Z.of_nat (Level sl))) with 0%nat by lia.
    simpl. rewrite app_nil_r, set_nextNodes_id, list_insert_id by done.
    by rewrite set_store_id. }
  induction fuel as [|fuel IH]; intros sl hd Hhd Hf; simpl.
  { apply Hstay; [done|lia]. }
  destruct (Z.ltb_spec (Z.of_nat (Level sl) - 1) randL) as [Hlt|Hge];
    [|apply Hstay; [done|lia]].
  rewrite Hhd.
  set (hd2 := set_nextNodes hd (nextNodes hd ++ [None])).
  set (sl2 := set_store sl (<[head sl := hd2]> (store sl))).
  assert (store sl2 !! head sl2 = Some hd2) as Hhd2.
  { simpl. apply list_lookup_insert_eq. by eapply lookup_lt_Some. }
  assert (Level sl2 = S (Level sl)) as Hlv2.
  { rewrite (Level_lookup sl hd Hhd), (Level_lookup sl2 hd2 Hhd2).
    simpl. rewrite length_app. simpl. lia. }
  rewrite (IH sl2 hd2 Hhd2) by lia. rewrite Hlv2.
  unfold sl2, set_store. simpl. rewrite list_insert_insert_eq.
  replace (Z.to_nat (randL + 1 - Z.of_nat (Level sl)))
    with (S (Z.to_nat (randL + 1 - Z.of_nat (S (Level sl))))) by lia.
  unfold hd2, set_nextNodes. simpl. by rewrite <-app_assoc.
Qed.

Lemma insert_slot_other st a n l (x : option addr) l' b :
  st !! a = Some n → l' ≠ l →
  (λ m, nextNodes m !! l') <$>
    <[a := set_nextNodes n (<[l := x]> (nextNodes n))]> st !! b =
  (λ m, nextNodes m !! l') <$> st !! b.
Proof.
  intros Hn Hne. destruct (decide (a = b)) as [<-|Hab].
  - rewrite list_lookup_insert_eq by (by eapply lookup_lt_Some).
    rewrite Hn. simpl. by rewrite list_lookup_insert_ne.
  - by rewrite list_lookup_insert_ne.
Qed.

Lemma keyOf_shape st st' a :
  node_shape <$> st' !! a = node_shape <$> st !! a →
  keyOf st' a = keyOf st a.
Proof.
  unfold keyOf. destruct (st' !! a), (st !! a); simpl; try done.
  by intros [= -> _ _].
Qed.

Lemma kvOf_shape st st' a :
  node_shape <$> st' !! a = node_shape <$> st !! a →
  kvOf st' a = kvOf st a.
Proof.
  unfold kvOf. destruct (st' !! a), (st !! a); simpl; try done.
  by intros [= -> -> _].
Qed.

(** Growing the head keeps the invariant, with the new levels empty. *)
Lemma Rep_grow sl Ls hd (m : nat) :
  Rep sl Ls → store sl !! head sl = Some hd →
  Rep (set_store sl
         (<[head sl := set_nextNodes hd (nextNodes hd ++ replicate m None)]>
            (store sl)))
      (Ls ++ replicate m []).
Proof.
  intros HR Hhd.
  assert (head sl < length (store sl))%nat as Hlt
    by (by eapply lookup_lt_Some).
  assert (length (nextNodes hd) = length Ls) as Hlen.
  { rewrite <-(rep_level _ _ HR). symmetry. by apply Level_lookup. }
  set (hd' := set_nextNodes hd _). set (st' := <[head sl := hd']> (store sl)).
  assert (st' !! head sl = Some hd') as Hhd'
    by (by apply list_lookup_insert_eq).
  assert (∀ b, key <$> st' !! b = key <$> store sl !! b) as Hkeys.
  { intros b. unfold st'. destruct (decide (head sl = b)) as [<-|Hne].
    - by rewrite list_lookup_insert_eq, Hhd.
    - by rewrite list_lookup_insert_ne. }
  constructor; simpl; fold hd' st'.
  - unfold Level. simpl. fold hd' st'. rewrite Hhd'. simpl.
    rewrite !length_app, !length_replicate. lia.
  - intros l L HL. destruct (decide (l < length Ls)%nat) as [Hl|Hl].
    + rewrite lookup_app_l in HL by done.
      eapply chain_same_level; [|by eapply rep_chain].
      intros b. unfold st'. destruct (decide (head sl = b)) as [<-|Hne].
      * rewrite list_lookup_insert_eq, Hhd by done. simpl.
        by rewrite lookup_app_l by lia.
      * by rewrite list_lookup_insert_ne.
    + rewrite lookup_app_r in HL by lia.
      apply lookup_replicate in HL as [-> Hm].
      econstructor; [exact Hhd'| |constructor]. simpl.
      rewrite lookup_app_r by lia. apply lookup_replicate_2. lia.
  - intros l L HL. destruct (decide (l < length Ls)%nat) as [Hl|Hl].
    + rewrite lookup_app_l in HL by done.
      erewrite list_fmap_ext; [by eapply rep_sorted|].
      intros i b _. by apply keyOf_same_keys.
    + rewrite lookup_app_r in HL by lia.
      apply lookup_replicate in HL as [-> _]. constructor.
  - intros l L L' HL HL'.
    destruct (decide (S l < length Ls)%nat) as [Hl|Hl].
    + rewrite lookup_app_l in HL, HL' by lia. by eapply rep_sub.
    + rewrite lookup_app_r in HL' by lia.
      apply lookup_replicate in HL' as [-> _]. apply sublist_nil_l.
Qed.

(** With every key on the way below [k], the walk of [Put] runs to the
    last node of the level. *)
Lemma put_right_end st l k post : ∀ c fuel,
  chain st l (Some c) (c :: post) →
  keyOf st c < k → Forall (λ a, keyOf st a < k) post →
  (length post < fuel)%nat →
  put_right fuel st l k c = Ok (last_or c post).
Proof.
  induction post as [|a post IH]; intros c fuel Hc Hk Hall Hf;
    (destruct fuel as [|fuel]; [simpl in Hf; lia|]);
    inversion Hc as [|? n q ? Hn Hq Hrest]; subst; simpl;
    rewrite (deref_Some _ _ _ Hn); simpl;
    rewrite (index_Some _ _ _ Hq); simpl.
  - by inversion Hrest; subst.
  - assert (q = Some a) as -> by (inversion Hrest; by subst).
    rewrite (keyOf_Some _ _ _ Hn) in Hk.
    destruct (Z.ltb_spec (key n) k) as [_|]; [|lia].
    apply Forall_cons in Hall as [Ha Hall].
    rewrite last_or_cons. apply IH; try done. simpl in Hf. lia.
Qed.

(** Linking the node at [nA] behind the last node of a level: in a store
    [st2] that agrees with [st] on every other node, where the last node
    points at [nA] and [nA] points at nothing, the level runs through its
    old nodes and then through [nA]. *)
Lemma chain_link_last st st2 l nA L : ∀ c,
  chain st l (Some c) (c :: L) →
  NoDup (c :: L) → nA ∉ c :: L →
  (∃ nn, st2 !! nA = Some nn ∧ nextNodes nn !! l = Some None) →
  (∃ cl, st2 !! last_or c L = Some cl ∧ nextNodes cl !! l = Some (Some nA)) →
  (∀ b, b ≠ nA → b ≠ last_or c L → st2 !! b = st !! b) →
  chain st2 l (Some c) (c :: L ++ [nA]).
Proof.
  induction L as [|a L IH]; intros c Hc Hnd Hfresh Hnew Hlast Hsame.
  - destruct Hnew as (nn & Hnn & Hnx). destruct Hlast as (cl & Hcl & Hcx).
    econstructor; [exact Hcl|exact Hcx|].
    econstructor; [exact Hnn|exact Hnx|constructor].
  - inversion Hc as [|? n q ? Hn Hq Hrest]; subst.
    assert (q = Some a) as -> by (inversion Hrest; by subst).
    apply NoDup_cons in Hnd as [Hc_out Hnd].
    rewrite last_or_cons in Hlast, Hsame.
    assert (st2 !! c = Some n) as Hn2.
    { rewrite Hsame; [done| |].
      - intros ->. apply Hfresh. left.
      - intros Heq. apply Hc_out. rewrite Heq.
        destruct (last_or_elem a L) as [[-> _]|Hin]; [left|by right]. }
    simpl. econstructor; [exact Hn2|exact Hq|].
    apply IH; try done. intros Hin. apply Hfresh. by right.
Qed.

(** The loop of [Put] for a key above the head's key and above every
    linked key: from level [lv] down it links the new node behind the
    last node of each level. *)
Lemma put_loop_append (k : Z) (hdA nA : addr) Ls1 : ∀ lv st cur,
  (lv ≤ length Ls1)%nat →
  (∃ nn, st !! nA = Some nn ∧ length (nextNodes nn) = length Ls1) →
  hdA ≠ nA → keyOf st hdA < k →
  (∀ l L, Ls1 !! l = Some L →
     (nA ∉ L) ∧ NoDup (hdA :: L) ∧ Forall (λ a, keyOf st a < k) L ∧
     (length L ≤ length st)%nat) →
  (∀ l L L', Ls1 !! l = Some L → Ls1 !! S l = Some L' → sublist L' L) →
  (∀ l L, (l < lv)%nat → Ls1 !! l = Some L →
     chain st l (Some hdA) (hdA :: L)) →
  (∀ l L, (lv ≤ l)%nat → Ls1 !! l = Some L →
     chain st l (Some hdA) (hdA :: L ++ [nA])) →
  cur = hdA ∨ (∃ L, Ls1 !! lv = Some L ∧ cur ∈ L) →
  ∃ st', put_loop st k nA lv cur = Ok st' ∧
    ∀ l L, Ls1 !! l = Some L → chain st' l (Some hdA) (hdA :: L ++ [nA]).
Proof.
  induction lv as [|lv IH];
    intros st cur Hlv Hnew Hne Hkhd Hlevels Hsub Hbelow Habove Hcur.
  { exists st. split; [done|]. intros l L HL. apply Habove; [lia|done]. }
  destruct (lookup_lt_is_Some_2 Ls1 lv) as [L HL]; [lia|].
  destruct (Hlevels _ _ HL) as (HnA & Hnd & Hkeys & Hlen).
  pose proof (Hbelow lv L (Nat.lt_succ_diag_r lv) HL) as Hc.
  (* the walk ends on the last node of the level *)
  assert (put_right (S (length st)) st lv k cur = Ok (last_or hdA L))
    as Hwalk.
  { destruct Hcur as [->|(L' & HL' & Hin)].
    - apply put_right_end; try done. lia.
    - pose proof (elem_of_sublist _ _ _ Hin (Hsub _ _ _ HL HL')) as Hin'.
      apply list_elem_of_split in Hin' as (p & q & ->).
      replace (last_or hdA (p ++ cur :: q)) with (last_or cur q).
      2: { unfold last_or. rewrite last_app, last_cons.
           by destruct (last q). }
      apply Forall_app in Hkeys as [_ [Hkc Hkq]%Forall_cons].
      apply put_right_end; try done.
      + by apply (chain_suffix st lv (Some hdA) (hdA :: p)).
      + rewrite length_app in Hlen. simpl in Hlen. lia. }
  set (cur' := last_or hdA L) in *.
  assert (cur' ∈ hdA :: L) as Hcur'.
  { unfold cur'.
    destruct (last_or_elem hdA L) as [[-> _]|Hin]; [left|by right]. }
  assert (cur' ≠ nA) as Hcur'_ne.
  { intros Heq. apply elem_of_cons in Hcur' as [Hh|Hin]; [congruence|].
    apply HnA. by rewrite <-Heq. }
  assert (chain st lv (Some hdA) (hdA :: L ++ [])) as Hc0
    by (by rewrite app_nil_r).
  destruct (chain_next _ _ _ _ _ Hc0) as (c & Hcl & Hcx). fold cur' in Hcl.
  destruct Hnew as (nn & Hnn & Hnlen).
  destruct (lookup_lt_is_Some_2 (nextNodes nn) lv) as [nx0 Hnx0]; [lia|].
  (* run one round of the loop *)
  cbn [put_loop]. rewrite Hwalk. cbn [mbind result_bind].
  rewrite (deref_Some _ _ _ Hcl). cbn [mbind result_bind].
  rewrite (index_Some _ _ _ Hcx). cbn [mbind result_bind hd_error].
  rewrite (deref_Some _ _ _ Hnn). cbn [mbind result_bind].
  rewrite (index_Some _ _ _ Hnx0). cbn [mbind result_bind].
  set (nn1 := set_nextNodes nn (<[lv := None]> (nextNodes nn))).
  set (st1 := <[nA := nn1]> st).
  assert (st1 !! cur' = Some c) as Hcl1.
  { unfold st1. by rewrite list_lookup_insert_ne. }
  rewrite (deref_Some _ _ _ Hcl1). cbn [mbind result_bind].
  rewrite (index_Some _ _ _ Hcx). cbn [mbind result_bind].
  set (c2 := set_nextNodes c (<[lv := Some nA]> (nextNodes c))).
  set (st2 := <[cur' := c2]> st1).
  assert (nA < length st)%nat as HnA_lt by (by eapply lookup_lt_Some).
  assert (cur' < length st)%nat as Hcur'_lt by (by eapply lookup_lt_Some).
  assert (st2 !! nA = Some nn1) as Hnn2.
  { unfold st2, st1. rewrite list_lookup_insert_ne by done.
    by apply list_lookup_insert_eq. }
  assert (st2 !! cur' = Some c2) as Hc2.
  { unfold st2, st1. apply list_lookup_insert_eq.
    by rewrite length_insert. }
  assert (∀ b, node_shape <$> st2 !! b = node_shape <$> st !! b) as Hshape.
  { intros b. unfold st2, c2.
    rewrite (insert_links_shape st1 cur' c) by (by rewrite ?length_insert).
    unfold st1, nn1. by rewrite (insert_links_shape st nA nn)
      by (by rewrite ?length_insert). }
  assert (∀ l' b, l' ≠ lv →
            (λ m, nextNodes m !! l') <$> st2 !! b =
            (λ m, nextNodes m !! l') <$> st !! b) as Hslots.
  { intros l' b Hl'. unfold st2, c2.
    rewrite (insert_slot_other st1 cur' c) by done.
    unfold st1, nn1. by rewrite (insert_slot_other st nA nn). }
  assert (length st2 = length st) as Hlen2.
  { unfold st2, st1. by rewrite !length_insert. }
  apply IH; clear IH.
  - lia.
  - exists nn1. split; [done|]. simpl. by rewrite length_insert.
  - done.
  - by rewrite (keyOf_shape st st2).
  - intros l L0 HL0. destruct (Hlevels _ _ HL0) as (? & ? & Hk0 & ?).
    repeat split; try done; [|lia].
    eapply Forall_impl; [exact Hk0|]. simpl. intros b Hb.
    by rewrite (keyOf_shape st st2).
  - done.
  - intros l L0 Hl HL0. eapply chain_same_level; [|apply Hbelow; [lia|done]].
    intros b. apply Hslots. lia.
  - intros l L0 Hl HL0. destruct (decide (l = lv)) as [->|Hne'].
    + assert (L0 = L) as -> by congruence.
      apply (chain_link_last st st2); try done.
      * intros Hin. apply elem_of_cons in Hin as [?|?]; [congruence|done].
      * exists nn1. split; [done|]. simpl.
        apply list_lookup_insert_eq. lia.
      * exists c2. split; [done|]. simpl.
        apply list_lookup_insert_eq. by eapply lookup_lt_Some.
      * intros b Hb1 Hb2. unfold st2, st1.
        by rewrite !list_lookup_insert_ne.
    + eapply chain_same_level; [|apply Habove; [lia|done]].
      intros b. by apply Hslots.
  - apply elem_of_cons in Hcur' as [Hh|Hin]; [by left|right].
    by exists L.
Qed.

(** X14: on a container that satisfies the invariant and has a level, [Put]
    of a key above the head's key and above every stored key, with a
    drawn height that reaches the head's top level, returns a container
    that satisfies the invariant with the new node linked at the end of
    every level up to its height; the stored pairs are the old ones
    followed by the new pair, and [Get] of the key returns the value. *)
Theorem Put_largest_key_appends sl Ls (k : Z) (v : T) (coins : nat → Z) hd :
  Rep sl Ls → Level sl ≠ 0%nat →
  store sl !! head sl = Some hd → key hd < k →
  (∀ kv, kv ∈ contents sl Ls → kkey kv < k) →
  Z.of_nat (Level sl) - 1 ≤ randLevel sl coins →
  ∃ sl' Ls', Put sl k v coins = Ok sl' ∧
    Ls' = levels_snoc Ls (Z.to_nat (randLevel sl coins) + 1)
            (length (store sl)) ∧
    Rep sl' Ls' ∧
    contents sl' Ls' = contents sl Ls ++ [newKvPair k v] ∧
    Get sl' k = Ok (v, true).
Proof.
  intros HR Hlv Hhd Hkhd Hall Hhigh.
  set (randL := randLevel sl coins) in *.
  pose proof (rep_level _ _ HR) as Hlevel.
  assert (∀ a, a ∈ base Ls → keyOf (store sl) a < k) as Hbase_lt.
  { intros a Ha. rewrite <-kkey_kvOf. apply Hall.
    by apply list_elem_of_fmap_2. }
  (* the key is new *)
  unfold Put. destruct (Nat.eqb_spec (Level sl) 0) as [|_]; [done|].
  rewrite (get_absent sl Ls k HR).
  2: { intros a Ha. specialize (Hbase_lt a Ha). lia. }
  cbn [mbind result_bind]. fold randL.
  (* the head grows to [randL + 1] slots *)
  rewrite (grow_store randL _ sl hd Hhd) by lia.
  set (m := Z.to_nat (randL + 1 - Z.of_nat (Level sl))).
  pose proof (Rep_grow sl Ls hd m HR Hhd) as HR1.
  set (hd1 := set_nextNodes hd _) in *.
  set (sl1 := set_store sl _) in *.
  set (Ls1 := Ls ++ replicate m []) in *.
  assert (length Ls1 = (Z.to_nat randL + 1)%nat) as Hlen1.
  { unfold Ls1, m. rewrite length_app, length_replicate. lia. }
  assert (length (store sl1) = length (store sl)) as Hst1
    by (simpl; by rewrite length_insert).
  assert (head sl < length (store sl))%nat as Hhd_lt
    by (by eapply lookup_lt_Some).
  assert (store sl1 !! head sl = Some hd1) as Hhd1
    by (simpl; by apply list_lookup_insert_eq).
  assert (Level sl1 = length Ls1) as Hlevel1 by apply (rep_level _ _ HR1).
  rewrite Hst1.
  set (nA := length (store sl)).
  set (new := newNode k v (replicate (Z.to_nat (randL + 1)) None)).
  set (st := store sl1 ++ [new]).
  assert (st !! nA = Some new) as Hnew.
  { unfold st, nA. rewrite <-Hst1. apply list_lookup_middle. done. }
  assert (∀ b, (b < nA)%nat → st !! b = store sl1 !! b) as Hold.
  { intros b Hb. unfold st. apply lookup_app_l. rewrite Hst1. done. }
  assert (∀ b, (b < nA)%nat →
            keyOf st b = keyOf (store sl) b) as Hkey_old.
  { intros b Hb. unfold keyOf. rewrite (Hold b Hb). simpl.
    destruct (decide (head sl = b)) as [<-|Hne].
    - by rewrite list_lookup_insert_eq, Hhd.
    - by rewrite list_lookup_insert_ne. }
  assert (∀ l L, Ls1 !! l = Some L → ∀ a, a ∈ L → a ∈ base Ls) as Hincl.
  { intros l L HL a Ha. unfold Ls1 in HL.
    destruct (decide (l < length Ls)%nat) as [Hl|Hl].
    - rewrite lookup_app_l in HL by done. by eapply rep_incl.
    - rewrite lookup_app_r in HL by lia.
      apply lookup_replicate in HL as [-> _]. by apply elem_of_nil in Ha. }
  assert (∀ a, a ∈ base Ls → (a < nA)%nat) as Hbase_old.
  { intros a Ha. destruct (rep_base_lookup _ _ _ HR Ha) as [n Hn].
    by eapply lookup_lt_Some. }
  destruct (put_loop_append k (head sl) nA Ls1 (Level sl1) st (head sl))
    as (st' & Hloop & Hchains).
  - lia.
  - exists new. split; [done|]. unfold new. simpl.
    rewrite length_replicate. lia.
  - unfold nA. lia.
  - rewrite Hkey_old by done. by rewrite (keyOf_Some _ _ _ Hhd).
  - intros l L HL.
    pose proof (rep_chain _ _ HR1 _ _ HL) as Hc.
    pose proof (rep_sorted _ _ HR1 _ _ HL) as Hs.
    split; [|split; [|split]].
    + intros Hin. pose proof (Hbase_old _ (Hincl _ _ HL _ Hin)). lia.
    + constructor; [by eapply chain_head_fresh|by eapply sorted_NoDup].
    + apply Forall_forall. intros a Ha.
      pose proof (Hincl _ _ HL _ Ha) as Hab.
      rewrite Hkey_old by (by apply Hbase_old). by apply Hbase_lt.
    + inversion Hc; subst. unfold st. rewrite length_app.
      assert (length L ≤ length (store sl1))%nat by (by eapply chain_length).
      lia.
  - apply (rep_sub _ _ HR1).
  - intros l L _ HL. unfold st. apply chain_app_store.
    by apply (rep_chain _ _ HR1).
  - intros l L Hl HL. apply lookup_lt_Some in HL. lia.
  - by left.
  - change (head sl1) with (head sl). rewrite Hloop.
    cbn [mbind result_bind].
    destruct (put_loop_shape _ _ _ _ _ _ Hloop) as [Hlen' Hshape].
    set (sl' := set_store sl1 st').
    set (Ls' := levels_snoc Ls (Z.to_nat randL + 1) nA).
    assert (Ls' = (λ L, L ++ [nA]) <$> Ls1) as HLs'.
    { unfold Ls', levels_snoc, Ls1, m. do 3 f_equal. lia. }
    assert (keyOf st' nA = k ∧ kvOf st' nA = newKvPair k v) as [HkA HkvA].
    { rewrite (keyOf_shape st st'), (kvOf_shape st st') by done.
      by rewrite (keyOf_Some _ _ _ Hnew), (kvOf_Some _ _ _ Hnew). }
    assert (∀ b, (b < nA)%nat →
              keyOf st' b = keyOf (store sl) b ∧
              kvOf st' b = kvOf (store sl) b) as Hold'.
    { intros b Hb. rewrite (keyOf_shape st st'), (kvOf_shape st st') by done.
      split; [by apply Hkey_old|]. unfold kvOf. rewrite (Hold b Hb). simpl.
      destruct (decide (head sl = b)) as [<-|Hne].
      - by rewrite list_lookup_insert_eq, Hhd.
      - by rewrite list_lookup_insert_ne. }
    assert (Rep sl' Ls') as HR'.
    { rewrite HLs'. constructor.
      - rewrite length_fmap, <-Hlevel1. apply Level_shape; [done|].
        simpl. rewrite Hshape. by rewrite Hold.
      - intros l X HX. apply list_lookup_fmap_Some in HX as (L & -> & HL).
        by apply Hchains.
      - intros l X HX. apply list_lookup_fmap_Some in HX as (L & -> & HL).
        pose proof (rep_sorted _ _ HR1 _ _ HL) as Hs.
        rewrite fmap_app. apply StronglySorted_app_2.
        + intros x1 x2 (a & -> & Ha)%list_elem_of_fmap Hx2.
          apply list_elem_of_singleton in Hx2 as ->. simpl.
          pose proof (Hincl _ _ HL _ Ha) as Hab.
          destruct (Hold' a (Hbase_old _ Hab)) as [-> _].
          rewrite HkA. by apply Hbase_lt.
        + erewrite list_fmap_ext; [exact Hs|]. intros i a Hi. simpl.
          pose proof (Hincl _ _ HL _ (list_elem_of_lookup_2 _ _ _ Hi)) as Hab.
          destruct (Hold' a (Hbase_old _ Hab)) as [-> _].
          symmetry. apply keyOf_same_keys. intros b. simpl.
          destruct (decide (head sl = b)) as [<-|Hne].
          * by rewrite list_lookup_insert_eq, Hhd.
          * by rewrite list_lookup_insert_ne.
        + repeat constructor.
      - intros l X X' HX HX'.
        apply list_lookup_fmap_Some in HX as (L & -> & HL).
        apply list_lookup_fmap_Some in HX' as (L' & -> & HL').
        apply sublist_app; [by eapply (rep_sub _ _ HR1)|done]. }
    assert (base Ls' = base Ls ++ [nA]) as Hbase'.
    { rewrite HLs'. unfold base, Ls1. rewrite list_lookup_fmap.
      destruct Ls as [|L0 Ls0]; [simpl in Hlevel; lia|done]. }
    exists sl', Ls'. split; [done|]. split; [done|]. split; [done|].
    split.
    + unfold contents. rewrite Hbase', fmap_app. simpl. rewrite HkvA.
      f_equal. apply list_fmap_ext. intros i a Hi.
      apply Hold', Hbase_old. by eapply list_elem_of_lookup_2.
    + assert (∃ n', st' !! nA = Some n' ∧ key n' = k ∧ val n' = v)
        as (n' & Hn' & <- & <-).
      { assert (node_shape <$> st' !! nA = Some (node_shape new)) as HsA.
        { rewrite Hshape. exact (f_equal (fmap node_shape) Hnew). }
        apply fmap_Some in HsA as (n' & Hn' & Heq).
        injection Heq as ? ? _. by exists n'. }
      apply (Get_present sl' Ls' nA n' HR'); [|done].
      rewrite Hbase'. apply elem_of_app. right. left.
Qed.

(** ** [Put] of a key that is not above the head's key *)

Lemma chain_agree st st2 l p L :
  (∀ b, b ∈ L → st2 !! b = st !! b) → chain st l p L → chain st2 l p L.
Proof.
  intros Hsame Hc. induction Hc as [|a n q L Hn Hq _ IH]; [constructor|].
  econstructor; [|exact Hq|].
  - rewrite Hsame; [done|left].
  - apply IH. intros b Hb. apply Hsame. by right.
Qed.

(** The loop of [Put] for a key that is not above the head's key: the
    walk never leaves the head, so on every level from [lv] down the new
    node is linked right behind the head. *)
Lemma put_loop_prepend (k : Z) (hdA nA : addr) Ls1 : ∀ lv st,
  (lv ≤ length Ls1)%nat →
  (∃ nn, st !! nA = Some nn ∧ length (nextNodes nn) = length Ls1) →
  hdA ≠ nA → k ≤ keyOf st hdA →
  (∀ l L, Ls1 !! l = Some L → nA ∉ L) →
  (∀ l L, (l < lv)%nat → Ls1 !! l = Some L →
     chain st l (Some hdA) (hdA :: L)) →
  (∀ l L, (lv ≤ l)%nat → Ls1 !! l = Some L →
     chain st l (Some hdA) (hdA :: nA :: L)) →
  ∃ st', put_loop st k nA lv hdA = Ok st' ∧
    ∀ l L, Ls1 !! l = Some L → chain st' l (Some hdA) (hdA :: nA :: L).
Proof.
  induction lv as [|lv IH];
    intros st Hlv Hnew Hne Hkhd Hfresh Hbelow Habove.
  { exists st. split; [done|]. intros l L HL. apply Habove; [lia|done]. }
  destruct (lookup_lt_is_Some_2 Ls1 lv) as [L HL]; [lia|].
  pose proof (Hbelow lv L (Nat.lt_succ_diag_r lv) HL) as Hc.
  pose proof (chain_head_fresh _ _ _ _ Hc) as Hhd_out.
  inversion Hc as [|? c q ? Hcl Hcx Hrest]; subst.
  rewrite (keyOf_Some _ _ _ Hcl) in Hkhd.
  assert (put_right (S (length st)) st lv k hdA = Ok hdA) as Hwalk.
  { cbn [put_right]. rewrite (deref_Some _ _ _ Hcl). cbn [mbind result_bind].
    rewrite (index_Some _ _ _ Hcx). cbn [mbind result_bind].
    destruct q as [a|]; [|done].
    destruct (Z.ltb_spec (key c) k) as [|_]; [lia|done]. }
  destruct Hnew as (nn & Hnn & Hnlen).
  destruct (lookup_lt_is_Some_2 (nextNodes nn) lv) as [nx0 Hnx0]; [lia|].
  cbn [put_loop]. rewrite Hwalk. cbn [mbind result_bind].
  rewrite (deref_Some _ _ _ Hcl). cbn [mbind result_bind].
  rewrite (index_Some _ _ _ Hcx). cbn [mbind result_bind].
  rewrite (deref_Some _ _ _ Hnn). cbn [mbind result_bind].
  rewrite (index_Some _ _ _ Hnx0). cbn [mbind result_bind].
  set (nn1 := set_nextNodes nn (<[lv := q]> (nextNodes nn))).
  set (st1 := <[nA := nn1]> st).
  assert (st1 !! hdA = Some c) as Hcl1.
  { unfold st1. rewrite list_lookup_insert_ne; [done|congruence]. }
  rewrite (deref_Some _ _ _ Hcl1). cbn [mbind result_bind].
  rewrite (index_Some _ _ _ Hcx). cbn [mbind result_bind].
  set (c2 := set_nextNodes c (<[lv := Some nA]> (nextNodes c))).
  set (st2 := <[hdA := c2]> st1).
  assert (nA < length st)%nat as HnA_lt by (by eapply lookup_lt_Some).
  assert (hdA < length st)%nat as HhdA_lt by (by eapply lookup_lt_Some).
  assert (st2 !! nA = Some nn1) as Hnn2.
  { unfold st2, st1. rewrite list_lookup_insert_ne by done.
    by apply list_lookup_insert_eq. }
  assert (st2 !! hdA = Some c2) as Hc2.
  { unfold st2, st1. apply list_lookup_insert_eq.
    by rewrite length_insert. }
  assert (∀ b, node_shape <$> st2 !! b = node_shape <$> st !! b) as Hshape.
  { intros b. unfold st2, c2.
    rewrite (insert_links_shape st1 hdA c) by (by rewrite ?length_insert).
    unfold st1, nn1. by rewrite (insert_links_shape st nA nn)
      by (by rewrite ?length_insert). }
  assert (∀ l' b, l' ≠ lv →
            (λ m, nextNodes m !! l') <$> st2 !! b =
            (λ m, nextNodes m !! l') <$> st !! b) as Hslots.
  { intros l' b Hl'. unfold st2, c2.
    rewrite (insert_slot_other st1 hdA c) by done.
    unfold st1, nn1. by rewrite (insert_slot_other st nA nn). }
  apply IH; clear IH.
  - lia.
  - exists nn1. split; [done|]. simpl. by rewrite length_insert.
  - done.
  - rewrite (keyOf_shape st st2) by done. by rewrite (keyOf_Some _ _ _ Hcl).
  - done.
  - intros l L0 Hl HL0. eapply chain_same_level; [|apply Hbelow; [lia|done]].
    intros b. apply Hslots. lia.
  - intros l L0 Hl HL0. destruct (decide (l = lv)) as [->|Hne'].
    + assert (L0 = L) as -> by congruence.
      econstructor; [exact Hc2| |].
      { simpl. apply list_lookup_insert_eq. by eapply lookup_lt_Some. }
      econstructor; [exact Hnn2| |].
      { simpl. apply list_lookup_insert_eq. lia. }
      apply (chain_agree st); [|done].
      intros b Hb. unfold st2, st1.
      rewrite !list_lookup_insert_ne; [done| |].
      * intros <-. by apply (Hfresh _ _ HL).
      * by intros <-.
    + eapply chain_same_level; [|apply Habove; [lia|done]].
      intros b. by apply Hslots.
Qed.

(** X15: on a container that satisfies the invariant and has a level,
    [Put] of a key that is not stored and not above the head's key, with
    a drawn height that reaches the head's top level, links the new node
    right behind the head on every level up to its height, whatever the
    stored keys are.  The container it returns satisfies the invariant
    exactly when the key is below every stored key; it then stores the
    new pair followed by the old ones and [Get] of the key returns the
    value. *)
Theorem Put_key_not_above_head_prepends
    sl Ls (k : Z) (v : T) (coins : nat → Z) hd :
  Rep sl Ls → Level sl ≠ 0%nat →
  store sl !! head sl = Some hd → k ≤ key hd →
  (∀ kv, kv ∈ contents sl Ls → kkey kv ≠ k) →
  Z.of_nat (Level sl) - 1 ≤ randLevel sl coins →
  ∃ sl' Ls', Put sl k v coins = Ok sl' ∧
    Ls' = levels_cons Ls (Z.to_nat (randLevel sl coins) + 1)
            (length (store sl)) ∧
    Level sl' = length Ls' ∧
    (∀ l L, Ls' !! l = Some L →
       chain (store sl') l (Some (head sl')) (head sl' :: L)) ∧
    contents sl' Ls' = newKvPair k v :: contents sl Ls ∧
    ((∃ Ls'', Rep sl' Ls'') ↔ ∀ kv, kv ∈ contents sl Ls → k < kkey kv) ∧
    ((∀ kv, kv ∈ contents sl Ls → k < kkey kv) →
     Rep sl' Ls' ∧ Get sl' k = Ok (v, true)).
Proof.
  intros HR Hlv Hhd Hkhd Hall Hhigh.
  set (randL := randLevel sl coins) in *.
  pose proof (rep_level _ _ HR) as Hlevel.
  unfold Put. destruct (Nat.eqb_spec (Level sl) 0) as [|_]; [done|].
  rewrite (get_absent sl Ls k HR).
  2: { intros a Ha Hk. apply (Hall (kvOf (store sl) a)).
       - by apply list_elem_of_fmap_2.
       - by rewrite kkey_kvOf. }
  cbn [mbind result_bind]. fold randL.
  rewrite (grow_store randL _ sl hd Hhd) by lia.
  set (m := Z.to_nat (randL + 1 - Z.of_nat (Level sl))).
  pose proof (Rep_grow sl Ls hd m HR Hhd) as HR1.
  set (hd1 := set_nextNodes hd _) in *.
  set (sl1 := set_store sl _) in *.
  set (Ls1 := Ls ++ replicate m []) in *.
  assert (length Ls1 = (Z.to_nat randL + 1)%nat) as Hlen1.
  { unfold Ls1, m. rewrite length_app, length_replicate. lia. }
  assert (length (store sl1) = length (store sl)) as Hst1
    by (simpl; by rewrite length_insert).
  assert (head sl < length (store sl))%nat as Hhd_lt
    by (by eapply lookup_lt_Some).
  assert (store sl1 !! head sl = Some hd1) as Hhd1
    by (simpl; by apply list_lookup_insert_eq).
  assert (Level sl1 = length Ls1) as Hlevel1 by apply (rep_level _ _ HR1).
  rewrite Hst1.
  set (nA := length (store sl)).
  set (new := newNode k v (replicate (Z.to_nat (randL + 1)) None)).
  set (st := store sl1 ++ [new]).
  assert (st !! nA = Some new) as Hnew.
  { unfold st, nA. rewrite <-Hst1. apply list_lookup_middle. done. }
  assert (∀ b, (b < nA)%nat → st !! b = store sl1 !! b) as Hold.
  { intros b Hb. unfold st. apply lookup_app_l. rewrite Hst1. done. }
  assert (∀ b, keyOf (store sl1) b = keyOf (store sl) b ∧
               kvOf (store sl1) b = kvOf (store sl) b) as Hold1.
  { intros b. unfold keyOf, kvOf. simpl.
    destruct (decide (head sl = b)) as [<-|Hne].
    - by rewrite list_lookup_insert_eq, Hhd.
    - by rewrite list_lookup_insert_ne. }
  assert (∀ l L, Ls1 !! l = Some L → ∀ a, a ∈ L → a ∈ base Ls) as Hincl.
  { intros l L HL a Ha. unfold Ls1 in HL.
    destruct (decide (l < length Ls)%nat) as [Hl|Hl].
    - rewrite lookup_app_l in HL by done. by eapply rep_incl.
    - rewrite lookup_app_r in HL by lia.
      apply lookup_replicate in HL as [-> _]. by apply elem_of_nil in Ha. }
  assert (∀ a, a ∈ base Ls → (a < nA)%nat) as Hbase_old.
  { intros a Ha. destruct (rep_base_lookup _ _ _ HR Ha) as [n Hn].
    by eapply lookup_lt_Some. }
  destruct (put_loop_prepend k (head sl) nA Ls1 (Level sl1) st)
    as (st' & Hloop & Hchains).
  - lia.
  - exists new. split; [done|]. unfold new. simpl.
    rewrite length_replicate. lia.
  - unfold nA. lia.
  - rewrite (keyOf_shape (store sl1) st) by (by rewrite Hold).
    destruct (Hold1 (head sl)) as [-> _].
    by rewrite (keyOf_Some _ _ _ Hhd).
  - intros l L HL Hin. pose proof (Hbase_old _ (Hincl _ _ HL _ Hin)). lia.
  - intros l L _ HL. unfold st. apply chain_app_store.
    by apply (rep_chain _ _ HR1).
  - intros l L Hl HL. apply lookup_lt_Some in HL. lia.
  - change (head sl1) with (head sl). rewrite Hloop.
    cbn [mbind result_bind].
    destruct (put_loop_shape _ _ _ _ _ _ Hloop) as [Hlen' Hshape].
    set (sl' := set_store sl1 st').
    set (Ls' := levels_cons Ls (Z.to_nat randL + 1) nA).
    assert (Ls' = (λ L, nA :: L) <$> Ls1) as HLs'.
    { unfold Ls', levels_cons, Ls1, m. do 3 f_equal. lia. }
    assert (keyOf st' nA = k ∧ kvOf st' nA = newKvPair k v) as [HkA HkvA].
    { rewrite (keyOf_shape st st'), (kvOf_shape st st') by done.
      by rewrite (keyOf_Some _ _ _ Hnew), (kvOf_Some _ _ _ Hnew). }
    assert (∀ b, (b < nA)%nat →
              keyOf st' b = keyOf (store sl) b ∧
              kvOf st' b = kvOf (store sl) b) as Hold'.
    { intros b Hb.
      assert (node_shape <$> st' !! b = node_shape <$> store sl1 !! b)
        as Hb'.
      { by rewrite Hshape, (Hold b Hb). }
      rewrite (keyOf_shape _ _ _ Hb'), (kvOf_shape _ _ _ Hb').
      apply Hold1. }
    assert (Level sl' = length Ls') as Hlevel'.
    { rewrite HLs', length_fmap, <-Hlevel1. apply Level_shape; [done|].
      simpl. rewrite Hshape. by rewrite Hold. }
    assert (∀ l X, Ls' !! l = Some X →
              chain st' l (Some (head sl)) (head sl :: X)) as Hchains'.
    { intros l X HX. rewrite HLs' in HX.
      apply list_lookup_fmap_Some in HX as (L & -> & HL).
      by apply Hchains. }
    assert (base Ls' = nA :: base Ls) as Hbase'.
    { rewrite HLs'. unfold base, Ls1. rewrite list_lookup_fmap.
      destruct Ls as [|L0 Ls0]; [simpl in Hlevel; lia|done]. }
    assert (keyOf st' <$> base Ls = keyOf (store sl) <$> base Ls) as Hkeys.
    { apply list_fmap_ext. intros i a Hi.
      apply Hold', Hbase_old. by eapply list_elem_of_lookup_2. }
    assert ((∀ kv, kv ∈ contents sl Ls → k < kkey kv) → Rep sl' Ls')
      as Hgood.
    { intros Hlt. rewrite HLs'. constructor.
      - by rewrite <-HLs'.
      - intros l X HX. apply Hchains'. by rewrite HLs'.
      - intros l X HX. apply list_lookup_fmap_Some in HX as (L & -> & HL).
        pose proof (rep_sorted _ _ HR1 _ _ HL) as Hs.
        assert (keyOf st' <$> L = keyOf (store sl1) <$> L) as HkL.
        { apply list_fmap_ext. intros i a Hi.
          pose proof (Hincl _ _ HL _ (list_elem_of_lookup_2 _ _ _ Hi)) as Hab.
          destruct (Hold' a (Hbase_old _ Hab)) as [-> _].
          symmetry. apply Hold1. }
        change (store sl') with st'.
        rewrite fmap_cons, HkL. constructor; [done|].
        rewrite HkA, <-HkL. apply Forall_fmap, Forall_forall. intros a Ha.
        pose proof (Hincl _ _ HL _ Ha) as Hab. simpl.
        destruct (Hold' a (Hbase_old _ Hab)) as [-> _].
        rewrite <-kkey_kvOf. apply Hlt. by apply list_elem_of_fmap_2.
      - intros l X X' HX HX'.
        apply list_lookup_fmap_Some in HX as (L & -> & HL).
        apply list_lookup_fmap_Some in HX' as (L' & -> & HL').
        apply sublist_skip. by eapply (rep_sub _ _ HR1). }
    exists sl', Ls'. split; [done|]. split; [done|]. split; [done|].
    split; [done|]. split; [|split].
    + unfold contents. rewrite Hbase', fmap_cons. simpl. rewrite HkvA.
      f_equal. apply list_fmap_ext. intros i a Hi.
      apply Hold', Hbase_old. by eapply list_elem_of_lookup_2.
    + split; [|intros Hlt; exists Ls'; by apply Hgood].
      intros [Ls'' HR''] kv (a & -> & Ha)%list_elem_of_fmap.
      rewrite kkey_kvOf.
      destruct (lookup_lt_is_Some_2 Ls'' 0) as [L0 HL0].
      { rewrite <-(rep_level _ _ HR''), Hlevel', HLs', length_fmap. lia. }
      pose proof (rep_chain _ _ HR'' _ _ HL0) as Hc''.
      pose proof (rep_sorted _ _ HR'' _ _ HL0) as Hs''.
      assert (Ls' !! 0%nat = Some (nA :: base Ls)) as HL0'.
      { revert Hbase'. unfold base at 1.
        destruct (Ls' !! 0%nat); simpl; [by intros ->|done]. }
      pose proof (chain_det _ _ _ _ _ Hc'' (Hchains' _ _ HL0')) as Heq.
      injection Heq as ->. simpl in Hs''.
      apply StronglySorted_inv in Hs'' as [_ Hfa].
      rewrite Forall_fmap, Forall_forall in Hfa.
      specialize (Hfa a Ha). simpl in Hfa.
      destruct (Hold' a (Hbase_old _ Ha)) as [Hka _].
      rewrite Hka in Hfa. by rewrite HkA in Hfa.
    + intros Hlt. pose proof (Hgood Hlt) as HR'. split; [done|].
      assert (∃ n', st' !! nA = Some n' ∧ key n' = k ∧ val n' = v)
        as (n' & Hn' & <- & <-).
      { assert (node_shape <$> st' !! nA = Some (node_shape new)) as HsA.
        { rewrite Hshape. exact (f_equal (fmap node_shape) Hnew). }
        apply fmap_Some in HsA as (n' & Hn' & Heq).
        injection Heq as ? ? _. by exists n'. }
      apply (Get_present sl' Ls' nA n' HR'); [|done].
      rewrite Hbase'. left.
Qed.

End Coverage.

(** ** The further properties at the example containers *)

Lemma sl_tall_Rep : Rep sl_tall Ls_tall.
Proof.
  constructor.
  - reflexivity.
  - intros [|[|[|l]]] L HL; simplify_eq/=;
      repeat (econstructor; try reflexivity).
  - intros [|[|[|l]]] L HL; simplify_eq/=; repeat constructor.
  - intros [|[|[|l]]] L L' HL HL'; simplify_eq/=; repeat constructor.
Qed.

Lemma sl_three_no_15 :
  ∀ kv, kv ∈ contents sl_three Ls_three → kkey kv ≠ 15.
Proof.
  rewrite sl_three_contents. intros kv Hin.
  repeat (apply elem_of_cons in Hin as [->|Hin]; [done|]).
  by apply elem_of_nil in Hin.
Qed.

Lemma Get_stored_or_absent_witness :
  ∃ r, Get sl_three 20 = Ok r ∧
    ((∃ v, r = (v, true) ∧ newKvPair 20 v ∈ contents sl_three Ls_three) ∨
     (r = (zero_value, false) ∧
      ∀ kv, kv ∈ contents sl_three Ls_three → kkey kv ≠ 20)).
Proof. exact (Get_stored_or_absent sl_three Ls_three 20 sl_three_Rep). Defined.

Lemma randLevel_counts_leading_zeros_witness :
  0 ≤ randLevel sl_three coins_zero ≤ maxLevel sl_three ∧
  (∀ j, (j < Z.to_nat (randLevel sl_three coins_zero))%nat →
        coins_zero j = 0) ∧
  (randLevel sl_three coins_zero = maxLevel sl_three ∨
   coins_zero (Z.to_nat (randLevel sl_three coins_zero)) ≠ 0).
Proof.
  apply (randLevel_counts_leading_zeros sl_three coins_zero). simpl. lia.
Defined.

Lemma Range_keys_within_bounds_witness :
  Range sl_three 15 30 = Ok [mkKvPair 20 200; mkKvPair 30 300] ∧
  Forall (λ kv, kkey kv ≤ 30) [mkKvPair 20 200; mkKvPair 30 300] ∧
  ∀ kv, hd_error [mkKvPair 20 200; mkKvPair 30 300] = Some kv →
        15 ≤ kkey kv.
Proof.
  split; [reflexivity|].
  apply (Range_keys_within_bounds sl_three 15 30). reflexivity.
Defined.

Lemma Range_starts_at_Ceil_witness :
  ∃ rc rr, Ceil sl_three 15 = Ok rc ∧ Range sl_three 15 30 = Ok rr ∧
    match rc with
    | (Some kv, _) =>
        if decide (kkey kv ≤ 30) then hd_error rr = Some kv else rr = []
    | (None, _) => rr = []
    end.
Proof. exact (Range_starts_at_Ceil sl_three Ls_three 15 30 sl_three_Rep). Defined.

Lemma Put_then_Get_stored_key_witness :
  ∃ sl', Put sl_three 20 7 coins_one = Ok sl' ∧
    Get sl' 20 = Ok (7, true) ∧
    ∀ k', k' ≠ 20 → Get sl' k' = Get sl_three k'.
Proof.
  apply (Put_then_Get_stored_key sl_three Ls_three 2%nat
           (mkNode 20 200 [Some 3%nat; None]) 7 coins_one).
  - exact sl_three_Rep.
  - right. left.
  - reflexivity.
Defined.

Lemma Put_twice_stored_key_witness :
  ∃ sl1, Put sl_three 20 7 coins_one = Ok sl1 ∧
    Put sl1 20 8 coins_zero = Put sl_three 20 8 coins_zero.
Proof.
  apply (Put_twice_stored_key sl_three Ls_three 2%nat
           (mkNode 20 200 [Some 3%nat; None]) 7 8 coins_one coins_zero).
  - exact sl_three_Rep.
  - right. left.
  - reflexivity.
Defined.

Lemma Floor_right_above_smallest_key_witness :
  ∃ kv, Floor sl_three 25 = Ok (Some kv, true) ∧
        is_floor (contents sl_three Ls_three) 25 (Some kv, true).
Proof.
  apply (Floor_right_above_smallest_key sl_three Ls_three 25
           1%nat 2%nat [3%nat]).
  - exact sl_three_Rep.
  - reflexivity.
  - vm_compute. discriminate.
Defined.

Lemma Floor_at_and_below_smallest_key_witness :
  Floor sl_three 15 = Ok (None, false) ∧
  Floor sl_three 9 = Ok (Some (newKvPair 0 0), true).
Proof.
  destruct (Floor_at_and_below_smallest_key sl_three Ls_three 15 sl_three_Rep)
    as [Hat _].
  destruct (Floor_at_and_below_smallest_key sl_three Ls_three 9 sl_three_Rep)
    as [_ Hbelow].
  split.
  - apply (Hat 1%nat [2%nat; 3%nat]); [reflexivity|vm_compute; discriminate|].
    intros b Hb.
    repeat (apply elem_of_cons in Hb as [->|Hb]; [by vm_compute|]).
    by apply elem_of_nil in Hb.
  - apply (Hbelow (mkNode 0 0 [Some 1%nat; Some 2%nat]));
      [discriminate|reflexivity|].
    intros b Hb.
    repeat (apply elem_of_cons in Hb as [->|Hb]; [by vm_compute|]).
    by apply elem_of_nil in Hb.
Defined.

Lemma Del_absent_key_trims_witness :
  ∃ sl' keep, Del sl_tall 15 = Ok sl' ∧
    (keep ≤ length Ls_tall)%nat ∧ Level sl' = keep ∧
    Rep sl' (take keep Ls_tall) ∧
    contents sl' (take keep Ls_tall) = contents sl_tall Ls_tall ∧
    (∀ l L, (keep ≤ l)%nat → Ls_tall !! l = Some L → L = []) ∧
    (∀ L, last (take keep Ls_tall) = Some L → L ≠ []).
Proof.
  apply (Del_absent_key_trims sl_tall Ls_tall 15); [exact sl_tall_Rep|].
  intros kv Hin.
  repeat (apply elem_of_cons in Hin as [->|Hin]; [done|]).
  by apply elem_of_nil in Hin.
Defined.

Lemma Put_level_bounded_witness :
  ∃ sl', Put sl_one 15 50 coins_zero = Ok sl' ∧
    head sl' = head sl_one ∧ maxLevel sl' = maxLevel sl_one ∧
    (Level sl_one ≤ Level sl')%nat ∧
    Z.of_nat (Level sl') ≤
      Z.max (Z.of_nat (Level sl_one)) (maxLevel sl_one + 1).
Proof.
  eexists. split; [vm_compute; reflexivity|].
  apply (Put_level_bounded sl_one 15 50 coins_zero);
    [simpl; lia|vm_compute; reflexivity].
Defined.

Lemma Put_below_top_level_panics_witness :
  Put sl_three 15 50 coins_one = Panic.
Proof.
  apply (Put_below_top_level_panics sl_three Ls_three 15 50 coins_one).
  - exact sl_three_Rep.
  - exact sl_three_no_15.
  - reflexivity.
Defined.

Lemma Put_largest_key_appends_witness :
  ∃ sl' Ls', Put sl_one 15 50 coins_zero = Ok sl' ∧
    Ls' = levels_snoc Ls_one (Z.to_nat (randLevel sl_one coins_zero) + 1)
            (length (store sl_one)) ∧
    Rep sl' Ls' ∧
    contents sl' Ls' = contents sl_one Ls_one ++ [newKvPair 15 50] ∧
    Get sl' 15 = Ok (50, true).
Proof.
  apply (Put_largest_key_appends sl_one Ls_one 15 50 coins_zero
           (mkNode 0 0 [Some 1%nat])).
  - exact sl_one_Rep.
  - discriminate.
  - reflexivity.
  - reflexivity.
  - intros kv Hin.
    repeat (apply elem_of_cons in Hin as [->|Hin]; [reflexivity|]).
    by apply elem_of_nil in Hin.
  - vm_compute. discriminate.
Defined.

Lemma Put_key_not_above_head_prepends_witness :
  ∃ sl' Ls', Put sl_one (-5) 50 coins_one = Ok sl' ∧
    Ls' = levels_cons Ls_one (Z.to_nat (randLevel sl_one coins_one) + 1)
            (length (store sl_one)) ∧
    Level sl' = length Ls' ∧
    (∀ l L, Ls' !! l = Some L →
       chain (store sl') l (Some (head sl')) (head sl' :: L)) ∧
    contents sl' Ls' = newKvPair (-5) 50 :: contents sl_one Ls_one ∧
    ((∃ Ls'', Rep sl' Ls'') ↔
     ∀ kv, kv ∈ contents sl_one Ls_one → -5 < kkey kv) ∧
    ((∀ kv, kv ∈ contents sl_one Ls_one → -5 < kkey kv) →
     Rep sl' Ls' ∧ Get sl' (-5) = Ok (50, true)).
Proof.
  apply (Put_key_not_above_head_prepends sl_one Ls_one (-5) 50 coins_one
           (mkNode 0 0 [Some 1%nat])).
  - exact sl_one_Rep.
  - discriminate.
  - reflexivity.
  - vm_compute. discriminate.
  - intros kv Hin.
    repeat (apply elem_of_cons in Hin as [->|Hin]; [done|]).
    by apply elem_of_nil in Hin.
  - vm_compute. discriminate.
Defined.
